(** * py3status [xrandr] module: a shallow embedding and its properties

    The module under study is [py3status/modules/xrandr.py].  It keeps a
    [Py3status] instance whose fields record the detected outputs, the ring of
    available screen combinations, the combination shown on the bar and the
    layout believed to be active, and it drives [xrandr] and [i3-msg].

    Conventions of the embedding:
    - Python [str] is [string]; a tuple or list of output names is
      [list string]; [None] is [option]'s [None].
    - a [dict] keyed by strings is a [gmap string _]; a [set] of strings is a
      [gset string]; an [OrderedDict] of which only the keys are ever read is
      the list of its keys in insertion order.
    - methods that only read and write fields are functions on the instance
      record; methods that log, sleep, run commands or may raise live in the
      monad [M] below, which threads the instance, counts the external
      commands run so far and collects the events in order. *)

From Stdlib Require Import ZArith Ascii String List Lia.
From stdpp Require Import base option list gmap fin_sets strings pretty.

Local Open Scope Z_scope.
Local Open Scope nat_scope.

(** ** Python string primitives *)

Module Py.

(** The double-quote character as a string. *)
Definition dquote : string := String "034"%char EmptyString.

(** [c in s] for a one-character [c]. *)
Fixpoint mem (c : ascii) (s : string) : bool :=
  match s with
  | EmptyString => false
  | String a s' => if decide (a = c) then true else mem c s'
  end.

(** [sep.join(l)] *)
Fixpoint join (sep : string) (l : list string) : string :=
  match l with
  | [] => EmptyString
  | [x] => x
  | x :: xs => x +:+ sep +:+ join sep xs
  end.

(** [s.rstrip(chars)]: drop every trailing character that occurs in
    [chars]. *)
Fixpoint rstrip (s chars : string) : string :=
  match s with
  | EmptyString => EmptyString
  | String a s' =>
      match rstrip s' chars with
      | EmptyString => if mem a chars then EmptyString else String a EmptyString
      | r => String a r
      end
  end.

(** [s.split(c)] for a one-character separator: never empty, consecutive
    separators give empty fields. *)
Fixpoint split (c : ascii) (s : string) : list string :=
  match s with
  | EmptyString => [EmptyString]
  | String a s' =>
      if decide (a = c) then EmptyString :: split c s'
      else match split c s' with
           | w :: ws => String a w :: ws
           | [] => [String a EmptyString]
           end
  end.

(** [sub in s] (substring test). *)
Fixpoint contains (sub s : string) : bool :=
  String.prefix sub s ||
  match s with
  | EmptyString => false
  | String _ s' => contains sub s'
  end.

(** [itertools.combinations(l, r)]: the length-[r] subsequences of [l], in
    lexicographic order of positions. *)
Fixpoint combinations {A} (l : list A) (r : nat) : list (list A) :=
  match r, l with
  | 0, _ => [[]]
  | S _, [] => []
  | S r', x :: xs => (cons x <$> combinations xs r') ++ combinations xs r
  end.

(** [deque.rotate(1)] moves the last element to the front,
    [deque.rotate(-1)] moves the first element to the back; other amounts
    repeat one of the two.  An empty deque is left alone. *)
Definition rotate_right {A} (l : list A) : list A :=
  match l with
  | [] => []
  | x :: xs => List.last xs x :: List.removelast l
  end.

Definition rotate_left {A} (l : list A) : list A :=
  match l with
  | [] => []
  | x :: xs => xs ++ [x]
  end.

Definition rotate {A} (n : Z) (l : list A) : list A :=
  match n with
  | Z0 => l
  | Zpos p => Nat.iter (Pos.to_nat p) rotate_right l
  | Zneg p => Nat.iter (Pos.to_nat p) rotate_left l
  end.

(** ['{:^w}'.format(s)]: centre [s] in a field of [w] characters, the odd
    space going to the right; a longer [s] is returned as it is. *)
Fixpoint spaces (n : nat) : string :=
  match n with
  | 0 => EmptyString
  | S n' => String " " (spaces n')
  end.

Definition center (w : nat) (s : string) : string :=
  let pad := w - String.length s in
  spaces (pad / 2) +:+ s +:+ spaces (pad - pad / 2).

(** [shlex.split(s)]: the words of a command line, or the message of the
    [ValueError] it raises.  The lexer runs in POSIX mode, splits on
    whitespace only and knows no comments.  Its state tells what it is
    reading: the gap between two words (state [' ']), a word (state ['a']), a
    quoted stretch of a word (the state is the quote character), or the
    character after a backslash (the state is the backslash, and
    [escapedstate] tells where to go back to: a word, or the double quotes,
    the only quotes in which a backslash escapes).  A word that has been
    started is handed out even when it is empty, since it then holds
    quotes. *)
Definition whitespace (c : ascii) : bool :=
  bool_decide (c = " "%char) || bool_decide (c = "009"%char)
  || bool_decide (c = "013"%char) || bool_decide (c = "010"%char).

Definition backslash : ascii := "\"%char.

Definition quote (c : ascii) : bool :=
  bool_decide (c = "'"%char) || bool_decide (c = "034"%char).

Inductive lexer :=
  | gap
  | word
  | quoted (q : ascii)
  | escaped (q : option ascii).

(** [token += c] *)
Definition add (token : string) (c : ascii) : string :=
  token +:+ String c EmptyString.

Fixpoint read (state : lexer) (token : string) (s : string) : string + list string :=
  match s with
  | EmptyString =>
      match state with
      | gap => inr []
      | word => inr [token]
      | quoted _ => inl "No closing quotation"
      | escaped _ => inl "No escaped character"
      end
  | String c s' =>
      match state with
      | gap =>
          if whitespace c then read gap EmptyString s'
          else if bool_decide (c = backslash) then read (escaped None) EmptyString s'
          else if quote c then read (quoted c) EmptyString s'
          else read word (String c EmptyString) s'
      | word =>
          if whitespace c then
            match read gap EmptyString s' with
            | inr words => inr (token :: words)
            | inl msg => inl msg
            end
          else if quote c then read (quoted c) token s'
          else if bool_decide (c = backslash) then read (escaped None) token s'
          else read word (add token c) s'
      | quoted q =>
          if bool_decide (c = q) then read word token s'
          else if bool_decide (c = backslash) && bool_decide (q = "034"%char)
          then read (escaped (Some q)) token s'
          else read (quoted q) (add token c) s'
      | escaped None => read word (add token c) s'
      | escaped (Some q) =>
          let token :=
            if bool_decide (c ≠ backslash) && bool_decide (c ≠ q)
            then add token backslash else token in
          read (quoted q) (add token c) s'
      end
  end.

Definition shlex_split (s : string) : string + list string :=
  read gap EmptyString s.

End Py.

(** ** The instance *)

Inductive mode := clone | extend.

Global Instance mode_eq_dec : EqDecision mode.
Proof. solve_decision. Defined.

(** The two [OrderedDict]s of [layout]; their values are never read. *)
Record layout := Layout {
  connected : list string;
  disconnected : list string
}.

Record Py3status := Self {
  (* configuration parameters *)
  cache_timeout : Z;
  fallback : bool;
  fixed_width : bool;
  force_on_start : option string;
  format_clone : string;
  format_extend : string;
  (* dynamic parameters <OUTPUT>_pos and <OUTPUT>_workspaces, by attribute
     name, as [getattr] finds them; they are strings, as the module
     documents them *)
  attrs : gmap string string;
  (* fields set by __init__ *)
  active_comb : option (list string);
  active_layout : option string;
  active_mode : option mode;
  displayed : option string;
  max_width : nat;
  (* fields created by the first call of xrandr() *)
  the_layout : layout;
  available_combinations : list string;
  combinations_map : gmap string (list string * option mode)
}.

Definition set_max_width (w : nat) (s : Py3status) : Py3status :=
  Self (cache_timeout s) (fallback s) (fixed_width s) (force_on_start s)
       (format_clone s) (format_extend s) (attrs s)
       (active_comb s) (active_layout s) (active_mode s) (displayed s) w
       (the_layout s) (available_combinations s) (combinations_map s).

Definition set_displayed (d : option string) (s : Py3status) : Py3status :=
  Self (cache_timeout s) (fallback s) (fixed_width s) (force_on_start s)
       (format_clone s) (format_extend s) (attrs s)
       (active_comb s) (active_layout s) (active_mode s) d (max_width s)
       (the_layout s) (available_combinations s) (combinations_map s).

Definition set_force_on_start (f : option string) (s : Py3status) : Py3status :=
  Self (cache_timeout s) (fallback s) (fixed_width s) f
       (format_clone s) (format_extend s) (attrs s)
       (active_comb s) (active_layout s) (active_mode s) (displayed s)
       (max_width s)
       (the_layout s) (available_combinations s) (combinations_map s).

Definition set_active (c : option (list string)) (l : option string)
    (m : option mode) (s : Py3status) : Py3status :=
  Self (cache_timeout s) (fallback s) (fixed_width s) (force_on_start s)
       (format_clone s) (format_extend s) (attrs s)
       c l m (displayed s) (max_width s)
       (the_layout s) (available_combinations s) (combinations_map s).

Definition set_layout (l : layout) (s : Py3status) : Py3status :=
  Self (cache_timeout s) (fallback s) (fixed_width s) (force_on_start s)
       (format_clone s) (format_extend s) (attrs s)
       (active_comb s) (active_layout s) (active_mode s) (displayed s)
       (max_width s)
       l (available_combinations s) (combinations_map s).

Definition set_available (a : list string) (s : Py3status) : Py3status :=
  Self (cache_timeout s) (fallback s) (fixed_width s) (force_on_start s)
       (format_clone s) (format_extend s) (attrs s)
       (active_comb s) (active_layout s) (active_mode s) (displayed s)
       (max_width s)
       (the_layout s) a (combinations_map s).

Definition set_combinations_map (m : gmap string (list string * option mode))
    (s : Py3status) : Py3status :=
  Self (cache_timeout s) (fallback s) (fixed_width s) (force_on_start s)
       (format_clone s) (format_extend s) (attrs s)
       (active_comb s) (active_layout s) (active_mode s) (displayed s)
       (max_width s)
       (the_layout s) (available_combinations s) m.

(** The class defaults and [__init__].  [layout], [available_combinations]
    and [combinations_map] do not exist before the first [xrandr()] call;
    they are given empty values here. *)
Definition init : Py3status :=
  Self 10%Z true true None "=" "+" ∅
       None None (Some extend) None 0
       (Layout [] []) [] ∅.

(** ** Display strings *)

(** [_separator]: [None] for a mode that is neither 'extend' nor 'clone'. *)
Definition _separator (self : Py3status) (m : option mode) : option string :=
  match m with
  | Some extend => Some (format_extend self)
  | Some clone => Some (format_clone self)
  | None => None
  end.

(** ['{}'.format(x)] for [x] a string or [None]. *)
Definition format_opt (x : option string) : string :=
  match x with
  | Some s => s
  | None => "None"
  end.

(** [_get_string_and_set_width]: the string, and the instance with
    [max_width] raised. *)
Definition _get_string_and_set_width (self : Py3status)
    (combination : list string) (m : option mode) : string * Py3status :=
  let show := Py.join (format_opt (_separator self m)) combination in
  let show := Py.rstrip show (format_opt (_separator self m)) in
  (show, set_max_width (Nat.max (max_width self) (String.length show)) self).

(** ** The combination generator *)

(** One turn of [for mode in ['clone', 'extend']]; the accumulator is the
    local set, the local dict and the instance. *)
Definition gen_mode (comb : list string)
    (acc : gset string * gmap string (list string * option mode) * Py3status)
    (m : mode) : gset string * gmap string (list string * option mode) * Py3status :=
  let '(available, cmap, self) := acc in
  let '(str, self) := _get_string_and_set_width self comb (Some m) in
  let cmap :=
    if decide (length comb = 1) then <[str := (comb, None)]> cmap
    else <[str := (comb, Some m)]> cmap in
  ({[str]} ∪ available, cmap, self).

(** One turn of [for comb in combinations(...)]: an empty tuple is falsy. *)
Definition gen_comb
    (acc : gset string * gmap string (list string * option mode) * Py3status)
    (comb : list string) :=
  match comb with
  | [] => acc
  | _ => foldl (gen_mode comb) acc [clone; extend]
  end.

(** One turn of [for output in range(len(connected)+1)]. *)
Definition gen_size (conn : list string)
    (acc : gset string * gmap string (list string * option mode) * Py3status)
    (r : nat) :=
  foldl gen_comb acc (Py.combinations conn r).

Definition gen_loops (self : Py3status) :=
  let conn := connected (the_layout self) in
  foldl (gen_size conn) (∅, ∅, set_max_width 0 self) (seq 0 (S (length conn))).

(** [_set_available_combinations].  [deque(available_combinations)] takes the
    strings in the iteration order of a Python set, which the program does not
    control; [elements] stands for that order, and nothing below depends on
    which order it is. *)
Definition _set_available_combinations (self : Py3status) : Py3status :=
  let '(available, cmap, self) := gen_loops self in
  set_combinations_map cmap (set_available (elements available) self).

(** ** Effects *)

(** What the module does to the outside, in order.  [Call cmd] is a process
    started by [call(shlex.split(cmd))]: the event keeps the command line as
    the module built it, and it is there only if the line could be split
    into words and the words be run.  [Popen cmd] starts the detection
    command, whose output is an input of the cycle. *)
Inductive event :=
  | Popen (cmd : string)
  | Call (cmd : string)
  | Syslog (msg : string)
  | Sleep (secs : nat).

Inductive exn :=
  | IndexError (msg : string)
  | TypeError (msg : string)
  | ValueError (msg : string).

(** The result of running a method: what it returned or raised, the instance
    afterwards, the number of commands run so far and the events emitted. *)
Record result (A : Type) := Result {
  value : exn + A;
  self_of : Py3status;
  ncalls : nat;
  events : list event
}.
Arguments Result {A}.
Arguments value {A}.
Arguments self_of {A}.
Arguments ncalls {A}.
Arguments events {A}.

(** A method takes the exit statuses of the outside world ([w k] is the status
    of the [k]-th command run), the instance and the number of commands run
    before it. *)
Definition M (A : Type) : Type := (nat → Z) → Py3status → nat → result A.

Definition ret {A} (a : A) : M A :=
  λ _ s k, Result (inr a) s k [].

Definition bind {A B} (m : M A) (f : A → M B) : M B :=
  λ w s k,
    let r := m w s k in
    match value r with
    | inl e => Result (inl e) (self_of r) (ncalls r) (events r)
    | inr a =>
        let r' := f a w (self_of r) (ncalls r) in
        Result (value r') (self_of r') (ncalls r') (events r ++ events r')
    end.

Declare Scope py_scope.
Delimit Scope py_scope with py.
Notation "'let*' x := m 'in' k" := (bind m (λ x, k))
  (at level 10, x name, m at level 100, k at level 200, only parsing) : py_scope.
Notation "m >> k" := (bind m (λ _, k))
  (at level 100, k at level 200, right associativity, only parsing) : py_scope.
Local Open Scope py_scope.

Definition raise {A} (e : exn) : M A :=
  λ _ s k, Result (inl e) s k [].

Definition get : M Py3status :=
  λ _ s k, Result (inr s) s k [].

Definition modify (f : Py3status → Py3status) : M unit :=
  λ _ s k, Result (inr tt) (f s) k [].

Definition emit (e : event) : M unit :=
  λ _ s k, Result (inr tt) s k [e].

Definition syslog (msg : string) : M unit := emit (Syslog msg).
Definition sleep (secs : nat) : M unit := emit (Sleep secs).

(** [call(shlex.split(cmd))].  The command line is first split into words,
    which raises a [ValueError] when a quote is left open or a backslash ends
    the line.  The words are then run as a process; a word that holds a NUL
    character cannot be passed to it, which is a [ValueError] as well
    (Python 3).  Otherwise the command runs and its status is returned.  The
    programs named by the module ([xrandr], [i3-msg], [killall]) are taken to
    be installed. *)
Definition call (cmd : string) : M Z :=
  match Py.shlex_split cmd with
  | inl msg => raise (ValueError msg)
  | inr argv =>
      if existsb (Py.mem "000"%char) argv
      then raise (ValueError "embedded null byte")
      else λ w s k, Result (inr (w k)) s (S k) [Call cmd]
  end.

(** [for x in l: body(x)] *)
Fixpoint for_each {A} (l : list A) (body : A → M unit) : M unit :=
  match l with
  | [] => ret tt
  | x :: xs => body x >> for_each xs body
  end.

(** [self.available_combinations[0]] *)
Definition head_available : M string :=
  let* self := get in
  match available_combinations self with
  | [] => raise (IndexError "deque index out of range")
  | x :: _ => ret x
  end.

(** ** Detection *)

Inductive xstate := is_connected | is_disconnected.

(** What the body of the [try] makes of one line of [xrandr]'s output:
    the output with its state and mode, [continue], or an exception with its
    message. *)
Inductive parsed :=
  | Output (output : string) (state : xstate) (xmode : option string)
  | Skip
  | Failed (err : string).

Definition parse_line (line : string) : parsed :=
  let s := Py.split " " line in
  match s !! 1 with
  | None => Failed "list index out of range"
  | Some s1 =>
      if decide (s1 = "connected") then
        match s !! 2 with
        | None => Failed "list index out of range"
        | Some EmptyString => Failed "string index out of range"
        | Some (String c _ as s2) =>
            if decide (c = "("%char) then Output (default EmptyString (s !! 0)) is_connected None
            else Output (default EmptyString (s !! 0)) is_connected (Some s2)
        end
      else if decide (s1 = "disconnected") then
        Output (default EmptyString (s !! 0)) is_disconnected None
      else Skip
  end.

(** [d[k] = v] on an [OrderedDict] of which only the keys are kept: a new key
    goes last, a known key keeps its place. *)
Definition od_set (k : string) (keys : list string) : list string :=
  if decide (k ∈ keys) then keys else keys ++ [k].

(** The [for line in ...] loop of [_get_layout]: the accumulator is the local
    [active_layout] list and the local [layout]; the events are the logged
    parse errors. *)
Definition detect_line (acc : list string * layout * list event) (line : string)
    : list string * layout * list event :=
  let '(active, lay, evs) := acc in
  match parse_line line with
  | Failed err => (active, lay, evs ++ [Syslog ("xrandr error=" +:+ Py.dquote +:+ err +:+ Py.dquote)])
  | Skip => acc
  | Output o is_connected md =>
      (match md with Some _ => active ++ [o] | None => active end,
       Layout (od_set o (connected lay)) (disconnected lay), evs)
  | Output o is_disconnected _ =>
      (active, Layout (connected lay) (od_set o (disconnected lay)), evs)
  end.

Definition detect (lines : list string) : list string * layout * list event :=
  foldl detect_line ([], Layout [] [], []) lines.

(** [_get_layout], given the lines that [xrandr] printed. *)
Definition _get_layout (lines : list string) : M layout :=
  emit (Popen "xrandr") >>
  let '(active, lay, evs) := detect lines in
  for_each evs emit >>
  let* self := get in
  match active_layout self with
  | None =>
      let '(str, self') :=
        _get_string_and_set_width (set_active (Some active) None (active_mode self) self)
                                  active (active_mode self) in
      modify (λ _, set_active (Some active) (Some str) (active_mode self') self')
  | Some _ => ret tt
  end >>
  ret lay.

(** ** Selection *)

(** [x in self.available_combinations] for a field [x] that holds a string or
    [None]: [None] equals no string. *)
Definition is_available (x : option string) (ring : list string) : bool :=
  match x with
  | Some s => bool_decide (s ∈ ring)
  | None => false
  end.

Definition rotate_available (direction : Z) : M unit :=
  modify (λ self, set_available (Py.rotate direction (available_combinations self)) self).

(** The [for _ in range(n)] loop of [_choose_what_to_display]; the result
    tells whether it left through a [break]. *)
Fixpoint choose_loop (n : nat) : M bool :=
  match n with
  | 0 => ret false
  | S n' =>
      let* self := get in
      let* head := head_available in
      if bool_decide (displayed self = None) && bool_decide (Some head = active_layout self)
      then modify (set_displayed (Some head)) >> ret true
      else if bool_decide (displayed self = Some head) then ret true
      else rotate_available 1 >> choose_loop n'
  end.

Definition _choose_what_to_display (force_refresh : bool) : M unit :=
  let* self := get in
  let* broke := choose_loop (length (available_combinations self)) in
  if broke then ret tt
  else if force_refresh then
    let* head := head_available in
    modify (set_displayed (Some head))
  else syslog ("xrandr error=" +:+ Py.dquote +:+ "displayed combination is not available" +:+ Py.dquote).

(** [_center].  Formatting [None] with a width is an error in Python 3
    ([NoneType.__format__] accepts only the empty format). *)
Definition _center (s : option string) : M string :=
  let* self := get in
  match s with
  | Some s => ret (Py.center (max_width self) s)
  | None => raise (TypeError "unsupported format string passed to NoneType.__format__")
  end.

Definition _switch_selection (direction : Z) : M unit :=
  rotate_available direction >>
  let* head := head_available in
  modify (set_displayed (Some head)).

(** ** Applying a combination *)

(** [getattr(self, name, default)] for the dynamic parameters. *)
Definition getattr (self : Py3status) (name dflt : string) : string :=
  default dflt (attrs self !! name).

Definition relational (pos : string) : bool :=
  Py.contains "above" pos || Py.contains "below" pos ||
  Py.contains "left-of" pos || Py.contains "right-of" pos.

(** One turn of [for output in outputs] in [_apply]; the accumulator is
    [cmd] and [previous_output]. *)
Definition synth_output (self : Py3status) (combination : list string)
    (m : option mode) (acc : string * option string) (output : string)
    : string * option string :=
  let '(cmd, previous_output) := acc in
  let cmd := cmd +:+ " --output " +:+ output in
  if bool_decide (output ∈ combination) then
    let pos := getattr self (output +:+ "_pos") "0x0" in
    let cmd :=
      if bool_decide (m = Some clone) && bool_decide (previous_output ≠ None)
      then cmd +:+ " --auto --same-as " +:+ format_opt previous_output
      else if relational pos
      then cmd +:+ " --auto --" +:+ pos +:+ " --rotate normal"
      else cmd +:+ " --auto --pos " +:+ pos +:+ " --rotate normal" in
    (cmd, Some output)
  else (cmd +:+ " --off", previous_output).

(** The command line that [_apply] builds. *)
Definition synthesize (self : Py3status) (combination : list string)
    (m : option mode) : string :=
  let outputs := connected (the_layout self) ++ disconnected (the_layout self) in
  fst (foldl (synth_output self combination m) ("xrandr", None) outputs).

Definition workspace_cmd (workspace : string) : string :=
  "i3-msg workspace " +:+ Py.dquote +:+ workspace +:+ Py.dquote.

Definition move_cmd (output : string) : string :=
  "i3-msg move workspace to output " +:+ Py.dquote +:+ output +:+ Py.dquote.

Definition _apply_workspaces (combination : list string) (m : option mode) : M unit :=
  if bool_decide (1 < length combination) && bool_decide (m = Some extend) then
    sleep 3 >>
    for_each combination (λ output,
      let* self := get in
      let workspaces := Py.split "," (getattr self (output +:+ "_workspaces") EmptyString) in
      for_each workspaces (λ workspace,
        match workspace with
        | EmptyString => ret tt
        | _ =>
            call (workspace_cmd workspace) >>
            call (move_cmd output) >>
            syslog ("moved workspace " +:+ workspace +:+ " to output " +:+ output)
        end))
  else ret tt.

(** [self.combinations_map.get(self.displayed, (None, None))]; [None] here
    stands for the pair [(None, None)]. *)
Definition lookup_displayed (self : Py3status) : option (list string * option mode) :=
  match displayed self with
  | Some d => combinations_map self !! d
  | None => None
  end.

Definition _apply (force : bool) : M unit :=
  let* self := get in
  if bool_decide (displayed self = active_layout self) && negb force then ret tt
  else
    match lookup_displayed self with
    | None => ret tt
    | Some (combination, m) =>
        let cmd := synthesize self combination m in
        let* code := call cmd in
        (if bool_decide (code = 0%Z)
         then modify (set_active (Some combination) (displayed self) m)
         else ret tt) >>
        syslog ("command " +:+ Py.dquote +:+ cmd +:+ Py.dquote +:+ " exit code " +:+ pretty code) >>
        _apply_workspaces combination m
    end.

Definition _refresh_py3status : M unit :=
  call "killall -s USR1 py3status" >> ret tt.

Definition _fallback_to_available_output : M unit :=
  let* self := get in
  match active_comb self with
  | None => raise (TypeError "object of type 'NoneType' has no len()")
  | Some comb =>
      if bool_decide (length comb = 1) then
        _choose_what_to_display true >>
        _apply false >>
        _refresh_py3status
      else ret tt
  end.

Definition _force_force_on_start : M unit :=
  let* self := get in
  if is_available (force_on_start self) (available_combinations self) then
    modify (set_displayed (force_on_start self)) >>
    modify (set_force_on_start None) >>
    _choose_what_to_display true >>
    _apply true >>
    _refresh_py3status
  else ret tt.

(** [on_click], given [event['button']]. *)
Definition on_click (button : Z) : M unit :=
  (if bool_decide (button = 4%Z) then _switch_selection (-1) else ret tt) >>
  (if bool_decide (button = 1%Z ∨ button = 5%Z) then _switch_selection 1 else ret tt) >>
  (if bool_decide (button = 2%Z) then _choose_what_to_display true else ret tt) >>
  (if bool_decide (button = 3%Z) then _apply false else ret tt).

(** ** The refresh cycle *)

Record i3s_config := I3sConfig {
  color_good : string;
  color_bad : string;
  color_degraded : string
}.

(** The response dict; [color] is [None] when the key is absent. *)
Record response := Response {
  cached_until : Z;
  full_text : option string;
  color : option string
}.

Definition set_color (c : string) (r : response) : response :=
  Response (cached_until r) (full_text r) (Some c).

(** The last block of [xrandr()] ("fallback detection"). *)
Definition fallback_detection (cfg : i3s_config) (resp : response) : M response :=
  let* self := get in
  if negb (is_available (active_layout self) (available_combinations self)) then
    let resp := set_color (color_degraded cfg) resp in
    (if fallback self then _fallback_to_available_output else ret tt) >>
    ret resp
  else ret resp.

(** The first two statements of [xrandr()], given the lines printed by the
    [xrandr] command. *)
Definition detect_and_generate (lines : list string) : M unit :=
  let* lay := _get_layout lines in
  modify (set_layout lay) >>
  modify _set_available_combinations.

(** [xrandr()], given those lines and the reading [now] of the clock, in
    whole seconds. *)
Definition xrandr (cfg : i3s_config) (lines : list string) (now : Z) : M response :=
  detect_and_generate lines >>
  _choose_what_to_display false >>
  let* self := get in
  let* text :=
    (if fixed_width self
     then let* t := _center (displayed self) in ret (Some t)
     else ret (displayed self)) in
  let resp := Response (now + cache_timeout self) text None in
  let resp :=
    if bool_decide (displayed self = active_layout self)
    then set_color (color_good cfg) resp
    else if negb (is_available (displayed self) (available_combinations self))
    then set_color (color_bad cfg) resp
    else resp in
  (if bool_decide (force_on_start self = None) then ret tt
   else sleep 1 >> _force_force_on_start) >>
  fallback_detection cfg resp.

(** ** Notions of the specification *)

(** The commands among some events, in order. *)
Definition calls_of (evs : list event) : list string :=
  omap (λ e, match e with Call c => Some c | _ => None end) evs.






Definition set_attrs (a : gmap string string) (s : Py3status) : Py3status :=
  Self (cache_timeout s) (fallback s) (fixed_width s) (force_on_start s)
       (format_clone s) (format_extend s) a
       (active_comb s) (active_layout s) (active_mode s) (displayed s)
       (max_width s)
       (the_layout s) (available_combinations s) (combinations_map s).


(** The command line can be run: it splits into words, none of which holds a
    NUL character. *)
Definition runnable (cmd : string) : bool :=
  match Py.shlex_split cmd with
  | inr argv => negb (existsb (Py.mem "000"%char) argv)
  | inl _ => false
  end.


(** [m] leaves the instance as it is, whether it returns or raises. *)
Definition keeps {A} (m : M A) : Prop :=
  ∀ w s k, self_of (m w s k) = s.


(** [evs], then what [r] emitted. *)
Definition prepend {A} (evs : list event) (r : result A) : result A :=
  Result (value r) (self_of r) (ncalls r) (evs ++ events r).

(** [m] returns normally from [self], leaves it as it is and emits [evs]. *)
Definition emits {A} (m : M A) (self : Py3status) (a : A) (evs : list event) : Prop :=
  ∀ w k, m w self k = Result (inr a) self (k + length (calls_of evs)) evs.

(** The line that [_apply] logs after running [cmd]. *)
Definition apply_log (cmd : string) (code : Z) : string :=
  "command " +:+ Py.dquote +:+ cmd +:+ Py.dquote +:+ " exit code " +:+ pretty code.

(** The instance after [_apply] ran the command for [combination] with
    status [code]. *)
Definition applied (self : Py3status) (combination : list string)
    (m : option mode) (code : Z) : Py3status :=
  if bool_decide (code = 0%Z)
  then set_active (Some combination) (displayed self) m self
  else self.

(** ** Sample instances *)

(** A laptop with an external screen plugged in and a third, unplugged
    connector: the laptop panel is the active layout, [DP1] has a position
    and two workspaces configured, and the extended pair is what the bar
    shows. *)
Definition docked : Py3status :=
  set_displayed (Some "eDP1+DP1")
    (set_active (Some ["eDP1"]) (Some "eDP1") None
       (_set_available_combinations
          (set_layout (Layout ["eDP1"; "DP1"] ["VGA1"])
             (set_attrs {[ "DP1_workspaces" := "1,2"; "DP1_pos" := "left-of eDP1" ]} init)))).

(** A world in which every command fails with status 1. *)
Definition failing : nat → Z := λ _, 1%Z.


(** ** The command of section 4.3 in its own words *)

(** What is asked of one output. *)
Inductive directive :=
  | Off
  | SameAs (previous : string)
  | Relative (pos : string)
  | Absolute (pos : string).

Definition render (d : directive) : string :=
  match d with
  | Off => " --off"
  | SameAs previous => " --auto --same-as " +:+ previous
  | Relative pos => " --auto --" +:+ pos +:+ " --rotate normal"
  | Absolute pos => " --auto --pos " +:+ pos +:+ " --rotate normal"
  end.

Definition position_hint (self : Py3status) (output : string) : string :=
  default "0x0" (attrs self !! (output +:+ "_pos")).

(** The members of the combination among the outputs already handled. *)
Definition members_before (combination before : list string) : list string :=
  filter (λ o, o ∈ combination) before.

(** The directive of [output], the outputs [before] it having been handled:
    off outside the combination; in clone mode, the same as the last member
    handled, if any; else the position hint, relational or absolute. *)
Definition directive_for (self : Py3status) (combination : list string)
    (m : option mode) (before : list string) (output : string) : directive :=
  if bool_decide (output ∈ combination) then
    match m, last (members_before combination before) with
    | Some clone, Some previous => SameAs previous
    | _, _ =>
        if relational (position_hint self output)
        then Relative (position_hint self output)
        else Absolute (position_hint self output)
    end
  else Off.

(** One block per output, in the order of the list. *)
Fixpoint directives (self : Py3status) (combination : list string)
    (m : option mode) (before outputs : list string) : list (string * directive) :=
  match outputs with
  | [] => []
  | o :: rest =>
      (o, directive_for self combination m before o)
      :: directives self combination m (before ++ [o]) rest
  end.

Definition render_block (b : string * directive) : string :=
  " --output " +:+ b.1 +:+ render b.2.

Definition render_blocks (bs : list (string * directive)) : string :=
  foldr (λ b rest, render_block b +:+ rest) EmptyString bs.

(** [m], [n] times in a row. *)
Fixpoint times (n : nat) (m : M unit) : M unit :=
  match n with
  | 0 => ret tt
  | S n' => m >> times n' m
  end.

(** The external screen of [docked] has been unplugged while the bar still
    shows the extended pair: the ring holds the laptop panel only. *)
Definition undocked : Py3status :=
  set_displayed (Some "eDP1+DP1")
    (set_active (Some ["eDP1"]) (Some "eDP1") None
       (_set_available_combinations
          (set_layout (Layout ["eDP1"] ["DP1"; "VGA1"]) init))).

(** ** What the generator is asked for *)

(** An output name that holds neither default separator. *)
Definition separator_free (o : string) : Prop :=
  Py.mem "+" o = false ∧ Py.mem "=" o = false.

(** The display string of a combination in a mode. *)
Definition display (self : Py3status) (m : mode) (combination : list string) : string :=
  (_get_string_and_set_width self combination (Some m)).1.

(** All tuples of fewer than [n] elements of [l], by length. *)
Definition upto {A} (l : list A) (n : nat) : list (list A) :=
  seq 0 n ≫= Py.combinations l.

(** The tuples that the two outer loops of the generator visit, in order. *)
Definition visited (conn : list string) : list (list string) :=
  upto conn (S (length conn)).

(** The turns of the innermost loop for one tuple: none for the empty tuple,
    which is falsy. *)
Definition turns (comb : list string) : list (list string * mode) :=
  match comb with
  | [] => []
  | _ => [(comb, clone); (comb, extend)]
  end.

(** Every (tuple, mode) that the three loops go through, in order. *)
Definition jobs (conn : list string) : list (list string * mode) :=
  visited conn ≫= turns.

(** What [combinations_map] is given for a tuple in a mode. *)
Definition entry (j : list string * mode) : list string * option mode :=
  (j.1, if decide (length j.1 = 1) then None else Some j.2).

(** An output name the generator copes with: not empty, no separator. *)
Definition wellformed (o : string) : Prop :=
  o ≠ EmptyString ∧ separator_free o.

(** The default separator of a mode. *)
Definition default_separator (m : mode) : string :=
  match m with
  | clone => "="
  | extend => "+"
  end.

(** The visited tuples of two outputs or more. *)
Definition multis (conn : list string) : list (list string) :=
  filter (λ c, 2 ≤ length c) (visited conn).

(** One job per display string: a single output once, a larger tuple in
    both modes. *)
Definition distinct_jobs (conn : list string) : list (list string * mode) :=
  ((λ o, ([o], clone)) <$> conn) ++ (multis conn ≫= turns).

(** The end of a line of output. *)
Definition nl : string := String "010"%char EmptyString.

Definition colors : i3s_config := I3sConfig "#00FF00" "#FF0000" "#FFFF00".

(** What [xrandr] prints for a laptop whose panel is on. *)
Definition laptop_alone : list string :=
  [ "Screen 0: minimum 8 x 8, current 1920 x 1080, maximum 32767 x 32767" +:+ nl;
    "eDP1 connected 1920x1080+0+0 (normal left inverted right x axis y axis) 344mm x 194mm" +:+ nl;
    "   1920x1080     60.00*+" +:+ nl ].

(** What it prints when no output is connected any more. *)
Definition nothing_connected : list string :=
  [ "Screen 0: minimum 8 x 8, current 1920 x 1080, maximum 32767 x 32767" +:+ nl;
    "eDP1 disconnected (normal left inverted right x axis y axis)" +:+ nl ].

(** Two connected outputs, neither of them carrying a mode. *)
Definition two_idle_outputs : list string :=
  [ "eDP1 connected (normal left inverted right x axis y axis)" +:+ nl;
    "DP1 connected (normal left inverted right x axis y axis)" +:+ nl ].

(** Two connected outputs, one of them with an empty name. *)
Definition nameless_output : Py3status :=
  set_layout (Layout ["A"; EmptyString] []) init.

(** * Properties *)

(** ** Strings *)

Section StringFacts.

Lemma append_nil_l (b : string) : EmptyString +:+ b = b.
Proof. reflexivity. Qed.

Lemma append_cons (x : ascii) (a b : string) :
  String x a +:+ b = String x (a +:+ b).
Proof. reflexivity. Qed.

Lemma append_assoc (a b c : string) : (a +:+ b) +:+ c = a +:+ b +:+ c.
Proof.
  induction a as [|x a IH]; [done|].
  by rewrite !append_cons, IH.
Qed.

Lemma append_nil_r (a : string) : a +:+ EmptyString = a.
Proof.
  induction a as [|x a IH]; [done|].
  by rewrite append_cons, IH.
Qed.

End StringFacts.

(** ** Reasoning about methods *)

(** How [bind] steps through each primitive. *)
Lemma prepend_nil {A} (r : result A) : prepend [] r = r.
Proof. by destruct r. Qed.

Lemma bind_ret {A B} (a : A) (f : A → M B) w s k :
  bind (ret a) f w s k = f a w s k.
Proof. unfold bind, ret. cbn. apply (prepend_nil (f a w s k)). Qed.

Lemma bind_get {B} (f : Py3status → M B) w s k :
  bind get f w s k = f s w s k.
Proof. unfold bind, get. cbn. apply (prepend_nil (f s w s k)). Qed.

Lemma bind_modify {B} (g : Py3status → Py3status) (f : unit → M B) w s k :
  bind (modify g) f w s k = f tt w (g s) k.
Proof. unfold bind, modify. cbn. apply (prepend_nil (f tt w (g s) k)). Qed.

Lemma bind_emit {B} e (f : unit → M B) w s k :
  bind (emit e) f w s k = prepend [e] (f tt w s k).
Proof. reflexivity. Qed.

(** A command line that can be run is run; one that cannot raises before
    anything happens. *)
Lemma call_runs cmd w s k :
  runnable cmd = true → call cmd w s k = Result (inr (w k)) s (S k) [Call cmd].
Proof.
  unfold runnable, call. destruct (Py.shlex_split cmd) as [msg|argv]; [done|].
  by destruct (existsb _ argv).
Qed.

Lemma call_raises cmd w s k :
  runnable cmd = false → ∃ msg, call cmd w s k = Result (inl (ValueError msg)) s k [].
Proof.
  unfold runnable, call. destruct (Py.shlex_split cmd) as [msg|argv]; [by eexists|].
  destruct (existsb _ argv); [by eexists|done].
Qed.

Lemma bind_call {B} cmd (f : Z → M B) w s k :
  runnable cmd = true →
  bind (call cmd) f w s k = prepend [Call cmd] (f (w k) w s (S k)).
Proof.
  intros Hrun. unfold bind. cbv zeta. by rewrite (call_runs _ _ _ _ Hrun).
Qed.

Lemma bind_raise {A B} e (f : A → M B) w s k :
  bind (raise e) f w s k = Result (inl e) s k [].
Proof. reflexivity. Qed.

Lemma bind_run {A B} (m : M A) (f : A → M B) w s k a :
  value (m w s k) = inr a →
  bind m f w s k
  = prepend (events (m w s k)) (f a w (self_of (m w s k)) (ncalls (m w s k))).
Proof. unfold bind. cbv zeta. by intros ->. Qed.

Lemma bind_assoc {A B C} (m : M A) (f : A → M B) (g : B → M C) w s k :
  bind (bind m f) g w s k = bind m (λ a, bind (f a) g) w s k.
Proof.
  unfold bind. cbv zeta. destruct (m w s k) as [[e|a] s1 k1 evs1]; cbn; [done|].
  destruct (f a w s1 k1) as [[e|b] s2 k2 evs2]; cbn; [done|].
  by rewrite app_assoc.
Qed.

Create Rewrite HintDb py.
#[global] Hint Rewrite @prepend_nil @bind_ret @bind_get @bind_modify @bind_emit
  @bind_raise : py.


Lemma emits_ret {A} (a : A) self : emits (ret a) self a [].
Proof. intros w k. unfold ret. simpl. f_equal. lia. Qed.








Lemma emits_get {B} (f : Py3status → M B) self b evs :
  emits (f self) self b evs → emits (bind get f) self b evs.
Proof.
  intros H w k. unfold bind, get. cbv zeta. cbn [value self_of ncalls events].
  rewrite (H w k). done.
Qed.








(** Neither primitive writes the instance, so the planner never does, whether
    it returns or raises. *)
Lemma keeps_ret {A} (a : A) : keeps (ret a).
Proof. done. Qed.

Lemma keeps_get : keeps get.
Proof. done. Qed.

Lemma keeps_emit e : keeps (emit e).
Proof. done. Qed.

Lemma keeps_call cmd : keeps (call cmd).
Proof.
  intros w s k. unfold call. destruct (Py.shlex_split cmd); [done|].
  by destruct (existsb _ _).
Qed.

Lemma keeps_bind {A B} (m : M A) (f : A → M B) :
  keeps m → (∀ a, keeps (f a)) → keeps (bind m f).
Proof.
  intros Hm Hf w s k. unfold bind. cbv zeta.
  destruct (value (m w s k)) as [e|a]; cbn [self_of]; [apply Hm|].
  rewrite Hf. apply Hm.
Qed.

Lemma keeps_for_each {A} (l : list A) (body : A → M unit) :
  (∀ x, keeps (body x)) → keeps (for_each l body).
Proof.
  intros Hbody. induction l as [|x l IH]; cbn [for_each]; [apply keeps_ret|].
  apply keeps_bind; auto.
Qed.

Lemma apply_workspaces_keeps combination m : keeps (_apply_workspaces combination m).
Proof.
  unfold _apply_workspaces. destruct (_ && _); [|apply keeps_ret].
  apply keeps_bind; [apply keeps_emit|]. intros _.
  apply keeps_for_each. intros output.
  apply keeps_bind; [apply keeps_get|]. intros self.
  apply keeps_for_each. intros [|c ws]; [apply keeps_ret|].
  apply keeps_bind; [apply keeps_call|]. intros _.
  apply keeps_bind; [apply keeps_call|]. intros _. apply keeps_emit.
Qed.



(** The first guard: nothing to do. *)
Lemma apply_skips self :
  displayed self = active_layout self → emits (_apply false) self tt [].
Proof.
  intros Heq. unfold _apply. apply emits_get.
  rewrite bool_decide_eq_true_2 by done. apply emits_ret.
Qed.

(** The second guard: the displayed string is no key of the map. *)
Lemma apply_ignores force self :
  lookup_displayed self = None → emits (_apply force) self tt [].
Proof.
  intros Hnone. unfold _apply. apply emits_get. rewrite Hnone.
  destruct (_ && _); apply emits_ret.
Qed.

Lemma apply_guard force self :
  force = true ∨ displayed self ≠ active_layout self →
  bool_decide (displayed self = active_layout self) && negb force = false.
Proof.
  intros [-> | Hne]; [apply andb_false_r|]. by rewrite bool_decide_eq_false_2.
Qed.

(** Past both guards with a command line that can be run: the command runs
    as the [k]-th one, its status decides whether the active layout is
    advanced, the attempt is logged and the planner follows. *)
Lemma apply_runs force w self k combination m :
  force = true ∨ displayed self ≠ active_layout self →
  lookup_displayed self = Some (combination, m) →
  runnable (synthesize self combination m) = true →
  _apply force w self k =
    prepend [Call (synthesize self combination m);
             Syslog (apply_log (synthesize self combination m) (w k))]
      (_apply_workspaces combination m w (applied self combination m (w k)) (S k)).
Proof.
  intros Hguard Hmap Hrun. unfold _apply.
  rewrite bind_get, (apply_guard _ _ Hguard), Hmap. cbv zeta.
  rewrite bind_call by done.
  unfold applied, syslog, apply_log.
  destruct (bool_decide (w k = 0%Z)).
  - rewrite bind_modify, bind_emit. reflexivity.
  - rewrite bind_ret, bind_emit. reflexivity.
Qed.

(** Past both guards with a command line that cannot be run: nothing
    happens but the exception. *)
Lemma apply_raises force w self k combination m :
  force = true ∨ displayed self ≠ active_layout self →
  lookup_displayed self = Some (combination, m) →
  runnable (synthesize self combination m) = false →
  ∃ msg, _apply force w self k = Result (inl (ValueError msg)) self k [].
Proof.
  intros Hguard Hmap Hrun. unfold _apply.
  rewrite bind_get, (apply_guard _ _ Hguard), Hmap. cbv zeta.
  destruct (call_raises _ w self k Hrun) as [msg Hcall].
  exists msg. unfold bind. cbv zeta. by rewrite Hcall.
Qed.


(** ** Command lines that can be run *)






(** ** The planner, one reassignment at a time *)












(** ** Apply: failure, idempotence, reassignment *)

Lemma applied_changes self combination m code :
  applied self combination m code ≠ self → code = 0%Z.
Proof. unfold applied. by case_bool_decide. Qed.

(** C3.  When the layout command run by Apply reports a non-zero status the
    instance (active combination, active layout, active mode, displayed and
    everything else) is afterwards exactly what it was; the instance changes
    only if the command ran and reported 0, and then by
    [active := displayed] with the combination and mode looked up.  Past the
    two guards, a command line that can be run is run first. *)
Theorem apply_advances_only_on_success force w self k :
  let r := _apply force w self k in
  (w k ≠ 0%Z → self_of r = self) ∧
  (self_of r ≠ self →
     w k = 0%Z ∧
     ∃ combination m,
       lookup_displayed self = Some (combination, m) ∧
       head (events r) = Some (Call (synthesize self combination m)) ∧
       self_of r = set_active (Some combination) (displayed self) m self) ∧
  (∀ combination m,
     force = true ∨ displayed self ≠ active_layout self →
     lookup_displayed self = Some (combination, m) →
     runnable (synthesize self combination m) = true →
     head (events r) = Some (Call (synthesize self combination m)) ∧
     (w k = 0%Z → self_of r = set_active (Some combination) (displayed self) m self)).
Proof.
  cbv zeta.
  destruct (decide (displayed self = active_layout self ∧ force = false)) as [[Heq ->]|Hrun].
  { rewrite (apply_skips self Heq w k). cbn. split_and!; try done.
    intros c m [?|?]; done. }
  assert (force = true ∨ displayed self ≠ active_layout self) as Hguard.
  { destruct force; [by left|]. right. intros ?. by apply Hrun. }
  destruct (lookup_displayed self) as [[combination m]|] eqn:Hmap.
  2: { rewrite (apply_ignores force self Hmap w k). cbn. split_and!; done. }
  destruct (runnable (synthesize self combination m)) eqn:Hcmd.
  2: { destruct (apply_raises force w self k combination m Hguard Hmap Hcmd) as [msg ->].
       cbn. split_and!; try done. intros c m' _ [= <- <-] Hc. congruence. }
  rewrite (apply_runs force w self k combination m Hguard Hmap Hcmd).
  unfold prepend. cbn [self_of events app head].
  rewrite (apply_workspaces_keeps combination m w _ (S k)).
  split_and!.
  - intros Hcode. unfold applied. by rewrite bool_decide_eq_false_2.
  - intros Hchg. pose proof (applied_changes _ _ _ _ Hchg) as Hzero.
    split; [done|]. exists combination, m. split_and!; try done.
    unfold applied. by rewrite bool_decide_eq_true_2.
  - intros c m' _ [= <- <-] _. split; [done|].
    intros Hzero. unfold applied. by rewrite bool_decide_eq_true_2.
Qed.

Lemma apply_advances_only_on_success_witness :
  self_of (_apply false failing docked 0) = docked.
Proof.
  apply (proj1 (apply_advances_only_on_success false failing docked 0)).
  unfold failing. lia.
Defined.

(** C4.  When [displayed] equals the active layout string, Apply without
    force runs no command, emits nothing and leaves the instance as it is;
    so does a second Apply right after it. *)
Theorem apply_without_change_is_noop w self k :
  displayed self = active_layout self →
  _apply false w self k = Result (inr tt) self k [] ∧
  (_apply false >> _apply false) w self k = Result (inr tt) self k [].
Proof.
  intros Heq. pose proof (apply_skips self Heq) as Hskip.
  assert (_apply false w self k = Result (inr tt) self k []) as H1.
  { rewrite (Hskip w k). cbn. f_equal. lia. }
  split; [done|].
  unfold bind. cbv zeta. rewrite H1. cbn [value self_of ncalls events].
  rewrite H1. done.
Qed.

Lemma apply_without_change_is_noop_witness :
  _apply false failing (set_displayed (Some "eDP1") docked) 0
    = Result (inr tt) (set_displayed (Some "eDP1") docked) 0 [].
Proof.
  apply (proj1 (apply_without_change_is_noop failing (set_displayed (Some "eDP1") docked) 0
                  eq_refl)).
Defined.







(** ** The synthesized command *)

Lemma members_before_snoc combination before o :
  members_before combination (before ++ [o])
  = members_before combination before ++ (if bool_decide (o ∈ combination) then [o] else []).
Proof.
  unfold members_before. rewrite filter_app. f_equal.
  rewrite filter_cons, filter_nil. case_decide.
  - by rewrite bool_decide_eq_true_2.
  - by rewrite bool_decide_eq_false_2.
Qed.

(** One turn of the loop adds the block of its output and remembers the
    output if it is a member. *)
Lemma synth_output_block self combination m before cmd o :
  synth_output self combination m (cmd, last (members_before combination before)) o
  = (cmd +:+ render_block (o, directive_for self combination m before o),
     last (members_before combination (before ++ [o]))).
Proof.
  unfold synth_output, directive_for, render_block. cbn [fst snd].
  rewrite members_before_snoc. fold (position_hint self o).
  destruct (bool_decide (o ∈ combination)).
  - rewrite last_snoc. f_equal.
    destruct (last (members_before combination before)) as [previous|].
    + rewrite (bool_decide_eq_true_2 (Some previous ≠ None)) by done.
      rewrite andb_true_r.
      destruct m as [[]|]; cbn [bool_decide decide_rel]; cbn;
        try destruct (relational _); cbn; by rewrite !append_assoc.
    + rewrite (bool_decide_eq_false_2 (None ≠ None)) by (intros H; by apply H).
      rewrite andb_false_r.
      destruct m as [[]|]; destruct (relational _); cbn; by rewrite !append_assoc.
  - rewrite app_nil_r. f_equal. cbn. by rewrite !append_assoc.
Qed.

Lemma synth_fold self combination m outputs : ∀ before cmd,
  foldl (synth_output self combination m)
        (cmd, last (members_before combination before)) outputs
  = (cmd +:+ render_blocks (directives self combination m before outputs),
     last (members_before combination (before ++ outputs))).
Proof.
  induction outputs as [|o outputs IH]; intros before cmd; cbn [foldl directives render_blocks foldr].
  - by rewrite append_nil_r, app_nil_r.
  - rewrite synth_output_block, IH. rewrite append_assoc.
    by rewrite <- (app_assoc before [o] outputs).
Qed.

Lemma directives_outputs self combination m outputs : ∀ before,
  (directives self combination m before outputs).*1 = outputs.
Proof. induction outputs as [|o outputs IH]; intros before; cbn; [done|]. by rewrite IH. Qed.

Lemma directives_lookup self combination m outputs : ∀ before i o,
  outputs !! i = Some o →
  directives self combination m before outputs !! i
  = Some (o, directive_for self combination m (before ++ take i outputs) o).
Proof.
  induction outputs as [|x outputs IH]; intros before i o Hi; [done|].
  destruct i as [|i]; cbn in *.
  - simplify_eq. by rewrite app_nil_r.
  - rewrite (IH _ _ _ Hi). by rewrite <- app_assoc.
Qed.

(** C5.  The command is [xrandr] followed by one block per output of the
    full list, connected outputs first and disconnected ones after, in that
    order.  The block of the [i]-th output is decided by the outputs before
    it: an output outside the combination is turned off; in clone mode a
    member that comes after another member is made the same as the member
    handled last; any other member gets its position hint (0x0 when not
    configured), in the relational form when the hint contains above, below,
    left-of or right-of and in the absolute form otherwise. *)
Theorem synthesize_blocks self combination m :
  let outputs := connected (the_layout self) ++ disconnected (the_layout self) in
  let blocks := directives self combination m [] outputs in
  synthesize self combination m = "xrandr" +:+ render_blocks blocks ∧
  blocks.*1 = outputs ∧
  (∀ i o, outputs !! i = Some o →
     blocks !! i = Some (o, directive_for self combination m (take i outputs) o)) ∧
  (∀ before o, o ∉ combination →
     directive_for self combination m before o = Off) ∧
  (∀ before o previous, o ∈ combination → m = Some clone →
     last (filter (λ x, x ∈ combination) before) = Some previous →
     directive_for self combination m before o = SameAs previous) ∧
  (∀ before o, o ∈ combination →
     m ≠ Some clone ∨ filter (λ x, x ∈ combination) before = [] →
     let pos := default "0x0" (attrs self !! (o +:+ "_pos")) in
     directive_for self combination m before o =
       if Py.contains "above" pos || Py.contains "below" pos ||
          Py.contains "left-of" pos || Py.contains "right-of" pos
       then Relative pos else Absolute pos).
Proof.
  cbv zeta. split_and!.
  - unfold synthesize.
    change (@None string) with (last (members_before combination [])).
    by rewrite synth_fold.
  - apply directives_outputs.
  - intros i o Hi. by rewrite (directives_lookup _ _ _ _ [] i o Hi).
  - intros before o Ho. unfold directive_for. by rewrite bool_decide_eq_false_2.
  - intros before o previous Ho -> Hlast. unfold directive_for, members_before.
    by rewrite bool_decide_eq_true_2, Hlast.
  - intros before o Ho Hfirst. unfold directive_for, members_before, position_hint, relational.
    rewrite bool_decide_eq_true_2 by done.
    destruct Hfirst as [Hm | ->]; [|by destruct m as [[]|]].
    destruct m as [[]|]; try done. all: by destruct (last _).
Qed.

Lemma synthesize_blocks_witness :
  directive_for docked ["eDP1"; "DP1"] (Some clone) ["eDP1"] "DP1" = SameAs "eDP1".
Proof.
  apply (proj1 (proj2 (proj2 (proj2 (proj2
           (synthesize_blocks docked ["eDP1"; "DP1"] (Some clone))))))).
  - apply list_elem_of_In. simpl. tauto.
  - reflexivity.
  - vm_compute. reflexivity.
Defined.

(** ** Rotation *)

Section Rotation.
Context {A : Type}.
Implicit Types l : list A.

Lemma rotate_left_length l : length (Py.rotate_left l) = length l.
Proof. destruct l as [|x xs]; [done|]. cbn. rewrite length_app. cbn. lia. Qed.

Lemma rotate_left_right l : Py.rotate_left (Py.rotate_right l) = l.
Proof.
  destruct l as [|x xs]; [done|]. unfold Py.rotate_right, Py.rotate_left.
  symmetry. rewrite (List.app_removelast_last x (l := x :: xs)) at 1 by done.
  f_equal. f_equal. destruct xs; done.
Qed.

Lemma rotate_right_length l : length (Py.rotate_right l) = length l.
Proof. by rewrite <- (rotate_left_length (Py.rotate_right l)), rotate_left_right. Qed.

Lemma rotate_right_left l : Py.rotate_right (Py.rotate_left l) = l.
Proof.
  destruct l as [|x xs]; [done|]. unfold Py.rotate_left.
  destruct xs as [|y ys]; [done|].
  change ((y :: ys) ++ [x]) with (y :: (ys ++ [x])).
  unfold Py.rotate_right. rewrite List.last_last.
  change (y :: (ys ++ [x])) with ((y :: ys) ++ [x]).
  by rewrite List.removelast_last.
Qed.

Lemma iter_undo (f g : list A → list A) n l :
  (∀ l, g (f l) = l) → Nat.iter n g (Nat.iter n f l) = l.
Proof.
  intros Hgf. revert l. induction n as [|n IH]; intros l; [done|].
  rewrite (Nat.iter_succ_r n g).
  change (Nat.iter (S n) f l) with (f (Nat.iter n f l)).
  by rewrite Hgf, IH.
Qed.

Lemma iter_length (f : list A → list A) n l :
  (∀ l, length (f l) = length l) → length (Nat.iter n f l) = length l.
Proof. intros Hf. induction n as [|n IH]; [done|]. cbn. by rewrite Hf. Qed.

End Rotation.

Lemma rotate_unit_length (d : Z) (l : list string) :
  d = 1%Z ∨ d = (-1)%Z → length (Py.rotate d l) = length l.
Proof.
  intros [-> | ->]; cbn.
  - apply rotate_right_length.
  - apply rotate_left_length.
Qed.

Lemma rotate_unit_undo (d : Z) (l : list string) :
  d = 1%Z ∨ d = (-1)%Z → Py.rotate (- d) (Py.rotate d l) = l.
Proof.
  intros [-> | ->]; cbn.
  - apply rotate_left_right.
  - apply rotate_right_left.
Qed.

Lemma set_displayed_available_again d1 a1 d2 a2 self :
  set_displayed d1 (set_available a1 (set_displayed d2 (set_available a2 self)))
  = set_displayed d1 (set_available a1 self).
Proof. by destruct self. Qed.

Lemma set_available_same self :
  set_available (available_combinations self) self = self.
Proof. by destruct self. Qed.


Lemma set_displayed_same self d :
  displayed self = d → set_displayed d self = self.
Proof. intros <-. by destruct self. Qed.

(** One click: the ring turns and its new head is displayed. *)
Lemma switch_selection_step d w self k :
  Py.rotate d (available_combinations self) ≠ [] →
  _switch_selection d w self k =
    Result (inr tt)
      (set_displayed (head (Py.rotate d (available_combinations self)))
         (set_available (Py.rotate d (available_combinations self)) self)) k [].
Proof.
  intros Hne. unfold _switch_selection, rotate_available, head_available.
  rewrite bind_modify, bind_assoc, bind_get.
  cbn [available_combinations set_available].
  destruct (Py.rotate d (available_combinations self)) as [|x ring]; [done|].
  by rewrite bind_ret.
Qed.

Lemma times_switch_selection d n : ∀ w self k,
  d = 1%Z ∨ d = (-1)%Z →
  available_combinations self ≠ [] →
  let ring := Nat.iter (S n) (Py.rotate d) (available_combinations self) in
  times (S n) (_switch_selection d) w self k =
    Result (inr tt) (set_displayed (head ring) (set_available ring self)) k [].
Proof.
  assert (∀ l : list string, l ≠ [] ↔ length l ≠ 0) as Hlen.
  { intros []; cbn; split; intros; (done || lia). }
  induction n as [|n IH]; intros w self k Hd Hne; cbv zeta.
  - cbn [times Nat.iter]. unfold bind. cbv zeta. rewrite switch_selection_step.
    + cbn. done.
    + apply Hlen. rewrite rotate_unit_length by done. by apply Hlen.
  - change (times (S (S n)) ?m) with (bind m (λ _, times (S n) m)).
    unfold bind at 1. cbv zeta. rewrite switch_selection_step.
    2: { apply Hlen. rewrite rotate_unit_length by done. by apply Hlen. }
    cbn [value self_of ncalls events].
    rewrite IH; [|done|].
    2: { cbn [available_combinations set_displayed set_available].
         apply Hlen. rewrite rotate_unit_length by done. by apply Hlen. }
    cbn [value self_of ncalls events available_combinations set_displayed set_available app].
    rewrite set_displayed_available_again.
    by rewrite (Nat.iter_succ_r (S n) (Py.rotate d) (available_combinations self)).
Qed.

(** C6, as the code has it.  On a non-empty ring, [n ≥ 1] clicks in one
    direction followed by [n] clicks in the other return normally, emit
    nothing, leave the ring in its original rotation and display the original
    head of the ring, nothing else changing; so [displayed] is back at its
    original value whenever it was the head of the ring to start with. *)
Theorem rotate_there_and_back n d w self k :
  available_combinations self ≠ [] →
  1 ≤ n →
  d = 1%Z ∨ d = (-1)%Z →
  let r := (times n (_switch_selection d) >> times n (_switch_selection (- d))) w self k in
  value r = inr tt ∧ events r = [] ∧ ncalls r = k ∧
  available_combinations (self_of r) = available_combinations self ∧
  displayed (self_of r) = head (available_combinations self) ∧
  self_of r = set_displayed (head (available_combinations self)) self ∧
  (displayed self = head (available_combinations self) → self_of r = self).
Proof.
  intros Hne Hn Hd. destruct n as [|n]; [lia|]. cbv zeta.
  assert (- d = 1 ∨ - d = -1)%Z as Hd' by lia.
  assert (∀ l : list string, l ≠ [] ↔ length l ≠ 0) as Hlen.
  { intros []; cbn; split; intros; (done || lia). }
  unfold bind. cbv zeta.
  rewrite (times_switch_selection d n w self k Hd Hne).
  cbn [value self_of ncalls events].
  rewrite times_switch_selection; [|done|].
  2: { cbn [available_combinations set_displayed set_available].
       apply Hlen. rewrite iter_length by (intros; by apply rotate_unit_length).
       by apply Hlen. }
  cbn [value self_of ncalls events available_combinations set_displayed set_available app].
  rewrite set_displayed_available_again.
  rewrite (iter_undo (Py.rotate d) (Py.rotate (- d)))
    by (intros; by apply rotate_unit_undo).
  rewrite set_available_same.
  split_and!; try done; try (by destruct self).
  intros Hhead. by apply set_displayed_same.
Qed.

Lemma rotate_there_and_back_witness :
  available_combinations
    (self_of ((times 2 (_switch_selection 1) >> times 2 (_switch_selection (-1)))
                failing docked 0))
  = available_combinations docked.
Proof.
  refine (proj1 (proj2 (proj2 (proj2
            (rotate_there_and_back 2 1 failing docked 0 _ _ _))))).
  - vm_compute. discriminate.
  - lia.
  - left. reflexivity.
Defined.

(** C6 as stated fails when [displayed] is not the head of the ring: with the
    ring holding the laptop panel only and the bar still showing the extended
    pair, one click forward and one click back leave the laptop panel
    displayed. *)
Lemma rotate_forgets_stale_selection :
  available_combinations undocked ≠ [] ∧
  displayed (self_of ((times 1 (_switch_selection 1) >> times 1 (_switch_selection (-1)))
                        failing undocked 0))
  ≠ displayed undocked.
Proof. split; vm_compute; discriminate. Qed.

(** ** Reconcile and fallback *)





















(** ** Display strings of well-formed names *)

Section Separators.

Lemma mem_append c (a b : string) : Py.mem c (a +:+ b) = Py.mem c a || Py.mem c b.
Proof.
  induction a as [|x a IH]; [done|].
  rewrite append_cons. cbn. case_decide; [done|]. exact IH.
Qed.

Lemma mem_single c a : Py.mem a (String c EmptyString) = bool_decide (c = a).
Proof. cbn. by case_decide; case_bool_decide. Qed.

(** Stripping a separator that does not occur changes nothing. *)
Lemma rstrip_absent c (o : string) :
  Py.mem c o = false → Py.rstrip o (String c EmptyString) = o.
Proof.
  induction o as [|a o IH]; [done|]. cbn [Py.mem Py.rstrip].
  case_decide as Hac; [done|]. intros Hmem. rewrite (IH Hmem).
  destruct o; [|done]. rewrite decide_False; [done|]. congruence.
Qed.

(** Nor does stripping a string that ends in something that stays. *)
Lemma rstrip_append chars (a b : string) :
  b ≠ EmptyString → Py.rstrip b chars = b → Py.rstrip (a +:+ b) chars = a +:+ b.
Proof.
  intros Hb Hstrip. induction a as [|x a IH]; [done|].
  rewrite append_cons. cbn [Py.rstrip]. rewrite IH.
  destruct (a +:+ b) eqn:Hab; [|done].
  destruct a, b; done.
Qed.

Lemma rstrip_join c (l : list string) :
  l ≠ [] →
  Forall (λ o, o ≠ EmptyString ∧ Py.mem c o = false) l →
  Py.rstrip (Py.join (String c EmptyString) l) (String c EmptyString)
  = Py.join (String c EmptyString) l.
Proof.
  intros Hne Hall. induction Hall as [|x l [Hx Hmem] Hall IH]; [done|].
  destruct l as [|y l].
  - cbn. by apply rstrip_absent.
  - change (Py.join ?s (x :: y :: l)) with (x +:+ s +:+ Py.join s (y :: l)).
    rewrite <- append_assoc. apply rstrip_append; [|by apply IH].
    inversion Hall as [|?? [Hy _] _]; subst.
    destruct l; cbn; [done|]. by destruct y.
Qed.

Lemma mem_join c sep (l : list string) :
  Py.mem c sep = false →
  Forall (λ o, Py.mem c o = false) l →
  Py.mem c (Py.join sep l) = false.
Proof.
  intros Hsep Hall. induction Hall as [|x l Hx Hall IH]; [done|].
  destruct l as [|y l]; [done|].
  change (Py.join ?s (x :: y :: l)) with (x +:+ s +:+ Py.join s (y :: l)).
  by rewrite !mem_append, Hx, Hsep, IH.
Qed.

Lemma mem_join_sep c (l : list string) :
  2 ≤ length l → Py.mem c (Py.join (String c EmptyString) l) = true.
Proof.
  destruct l as [|x [|y l]]; cbn [length]; [lia..|]. intros _.
  change (Py.join ?s (x :: y :: l)) with (x +:+ s +:+ Py.join s (y :: l)).
  rewrite !mem_append, mem_single, bool_decide_eq_true_2 by done.
  by rewrite orb_true_r.
Qed.

(** Two names without the separator that are followed by it are equal,
    and so is what follows. *)
Lemma cut_at_separator c (x y r1 r2 : string) :
  Py.mem c x = false → Py.mem c y = false →
  x +:+ String c r1 = y +:+ String c r2 → x = y ∧ r1 = r2.
Proof.
  revert y. induction x as [|a x IH]; intros [|b y] Hx Hy Heq.
  - by simplify_eq.
  - rewrite append_nil_l, append_cons in Heq. simplify_eq.
    cbn in Hy. by rewrite decide_True in Hy.
  - rewrite append_nil_l, append_cons in Heq. simplify_eq.
    cbn in Hx. by rewrite decide_True in Hx.
  - rewrite !append_cons in Heq. simplify_eq.
    cbn in Hx, Hy. case_decide; [done|].
    destruct (IH y Hx Hy) as [-> ->]; done.
Qed.

Lemma join_inj c (l1 l2 : list string) :
  Forall (λ o, Py.mem c o = false) l1 →
  Forall (λ o, Py.mem c o = false) l2 →
  l1 ≠ [] → l2 ≠ [] →
  Py.join (String c EmptyString) l1 = Py.join (String c EmptyString) l2 →
  l1 = l2.
Proof.
  intros H1. revert l2. induction H1 as [|x l1 Hx H1 IH]; intros l2 H2 Hn1 Hn2 Heq; [done|].
  destruct H2 as [|y l2 Hy H2]; [done|].
  destruct l1 as [|x' l1], l2 as [|y' l2].
  - cbn in Heq. by subst.
  - change (Py.join ?s (y :: y' :: l2)) with (y +:+ s +:+ Py.join s (y' :: l2)) in Heq.
    cbn [Py.join] in Heq. rewrite Heq in Hx.
    rewrite !mem_append, mem_single, bool_decide_eq_true_2 in Hx by done.
    by rewrite orb_true_r in Hx.
  - change (Py.join ?s (x :: x' :: l1)) with (x +:+ s +:+ Py.join s (x' :: l1)) in Heq.
    cbn [Py.join] in Heq. rewrite <- Heq in Hy.
    rewrite !mem_append, mem_single, bool_decide_eq_true_2 in Hy by done.
    by rewrite orb_true_r in Hy.
  - change (Py.join ?s (x :: x' :: l1)) with (x +:+ s +:+ Py.join s (x' :: l1)) in Heq.
    change (Py.join ?s (y :: y' :: l2)) with (y +:+ s +:+ Py.join s (y' :: l2)) in Heq.
    rewrite !append_cons, !append_nil_l in Heq.
    destruct (cut_at_separator _ _ _ _ _ Hx Hy Heq) as [-> Hrest].
    f_equal. by apply IH.
Qed.

End Separators.

(** ** The tuples of [itertools.combinations] *)

Section Combinations.
Context {A : Type}.
Implicit Types (l c : list A) (r : nat).

Lemma combinations_nil r : Py.combinations (@nil A) (S r) = [].
Proof. done. Qed.

Lemma combinations_cons x l r :
  Py.combinations (x :: l) (S r)
  = (cons x <$> Py.combinations l r) ++ Py.combinations l (S r).
Proof. done. Qed.

Lemma combinations_zero l : Py.combinations l 0 = [[]].
Proof. by destruct l. Qed.

(** Each tuple has the length asked for and is a subsequence. *)
Lemma combinations_elem l : ∀ r c,
  c ∈ Py.combinations l r → length c = r ∧ c `sublist_of` l.
Proof.
  induction l as [|x l IH]; intros [|r] c.
  - rewrite combinations_zero. intros ->%list_elem_of_singleton. by split.
  - rewrite combinations_nil. by intros ?%elem_of_nil.
  - rewrite combinations_zero. intros ->%list_elem_of_singleton.
    split; [done|]. apply sublist_nil_l.
  - rewrite combinations_cons, elem_of_app, list_elem_of_fmap.
    intros [(c' & -> & Hc')|Hc].
    + destruct (IH _ _ Hc') as [<- Hsub]. split; [done|]. by constructor.
    + destruct (IH _ _ Hc) as [<- Hsub]. split; [done|]. by constructor.
Qed.

(** Each subsequence is among the tuples of its length. *)
Lemma sublist_combinations c l :
  c `sublist_of` l → c ∈ Py.combinations l (length c).
Proof.
  induction 1 as [|x c l Hsub IH|x c l Hsub IH].
  - left.
  - cbn [length]. rewrite combinations_cons, elem_of_app. left.
    by apply list_elem_of_fmap_2.
  - destruct c as [|y c].
    + rewrite combinations_zero. left.
    + cbn [length] in *. rewrite combinations_cons, elem_of_app. by right.
Qed.

Lemma combinations_overflow l : ∀ r, length l < r → Py.combinations l r = [].
Proof.
  induction l as [|x l IH]; intros [|r] Hlt; cbn [length] in Hlt; try lia.
  - done.
  - rewrite combinations_cons, !IH by lia. done.
Qed.

Lemma combinations_NoDup l : ∀ r, NoDup l → NoDup (Py.combinations l r).
Proof.
  induction l as [|x l IH]; intros [|r] Hnd.
  - rewrite combinations_zero. apply NoDup_singleton.
  - rewrite combinations_nil. constructor.
  - rewrite combinations_zero. apply NoDup_singleton.
  - apply NoDup_cons in Hnd as [Hx Hnd].
    rewrite combinations_cons. apply NoDup_app. split_and!.
    + apply NoDup_fmap_2; [|by apply IH]. by intros ?? [=].
    + intros c (c' & -> & _)%list_elem_of_fmap Hc.
      apply combinations_elem in Hc as [_ Hsub].
      apply Hx. eapply elem_of_sublist; [|done]. left.
    + by apply IH.
Qed.

Lemma upto_succ l n : upto l (S n) = upto l n ++ Py.combinations l n.
Proof.
  unfold upto. rewrite seq_S, bind_app. cbn. by rewrite app_nil_r.
Qed.

Lemma upto_shift l n :
  upto l (S n) = [[]] ++ (seq 0 n ≫= λ r, Py.combinations l (S r)).
Proof.
  unfold upto. cbn [seq]. rewrite bind_cons, combinations_zero.
  f_equal. rewrite <- seq_shift.
  change (map S (seq 0 n)) with (S <$> seq 0 n). by rewrite list_fmap_bind.
Qed.

Lemma length_bind_app {B C} (f g : B → list C) (k : list B) :
  length (k ≫= λ b, f b ++ g b) = length (k ≫= f) + length (k ≫= g).
Proof.
  induction k as [|b k IH]; [done|].
  rewrite !bind_cons, !length_app, IH. lia.
Qed.

Lemma length_bind_fmap {B C D} (h : C → D) (f : B → list C) (k : list B) :
  length (k ≫= λ b, h <$> f b) = length (k ≫= f).
Proof.
  induction k as [|b k IH]; [done|].
  by rewrite !bind_cons, !length_app, length_fmap, IH.
Qed.

Lemma upto_cons_length x l n :
  length (upto (x :: l) (S n)) = length (upto l n) + length (upto l (S n)).
Proof.
  rewrite (upto_shift (x :: l)), (upto_shift l), !length_app.
  cbn [length].
  rewrite (list_bind_ext (λ r, Py.combinations (x :: l) (S r))
             (λ r, (cons x <$> Py.combinations l r) ++ Py.combinations l (S r))
             (seq 0 n) (seq 0 n)) by done.
  rewrite length_bind_app, length_bind_fmap. unfold upto. lia.
Qed.

Lemma upto_all_length l : length (upto l (S (length l))) = 2 ^ length l.
Proof.
  induction l as [|x l IH]; [done|].
  cbn [length]. rewrite upto_cons_length, IH.
  rewrite upto_succ, length_app, IH.
  rewrite combinations_overflow by lia. cbn [length Nat.pow]. lia.
Qed.

Lemma upto_all_elem l c : c ∈ upto l (S (length l)) ↔ c `sublist_of` l.
Proof.
  unfold upto. rewrite list_elem_of_bind. split.
  - intros (r & Hc & _). by apply combinations_elem in Hc as [_ ?].
  - intros Hsub. exists (length c). split; [by apply sublist_combinations|].
    apply list_elem_of_In, in_seq. apply sublist_length in Hsub. lia.
Qed.

Lemma upto_NoDup l n : NoDup l → NoDup (upto l n).
Proof.
  intros Hnd. apply NoDup_bind.
  - intros r1 r2 c _ _ H1 H2.
    apply combinations_elem in H1 as [<- _]. by apply combinations_elem in H2 as [<- _].
  - intros r _. by apply combinations_NoDup.
  - apply NoDup_seq.
Qed.

End Combinations.

(** ** The generator as one loop over [jobs] *)

Lemma foldl_bind {A B C} (f : A → C → A) (g : B → list C) (l : list B) : ∀ a,
  foldl f a (l ≫= g) = foldl (λ a x, foldl f a (g x)) a l.
Proof.
  induction l as [|x l IH]; intros a; [done|].
  by rewrite bind_cons, foldl_app, IH.
Qed.

Lemma gen_comb_turns acc comb :
  gen_comb acc comb = foldl (λ acc j, gen_mode j.1 acc j.2) acc (turns comb).
Proof. by destruct comb. Qed.

Lemma gen_loops_jobs self :
  gen_loops self
  = foldl (λ acc j, gen_mode j.1 acc j.2) (∅, ∅, set_max_width 0 self)
          (jobs (connected (the_layout self))).
Proof.
  unfold gen_loops, jobs, visited, upto. cbv zeta.
  rewrite !foldl_bind. cbn [connected the_layout set_max_width].
  generalize (seq 0 (S (length (connected (the_layout self))))).
  generalize (∅ : gset string, ∅ : gmap string (list string * option mode),
              set_max_width 0 self).
  intros acc rs. revert acc. induction rs as [|r rs IH]; intros acc; [done|].
  cbn [foldl]. rewrite <- IH. f_equal. unfold gen_size.
  generalize (Py.combinations (connected (the_layout self)) r). intros cs.
  revert acc. induction cs as [|c cs IHc]; intros acc; [done|].
  cbn [foldl]. by rewrite <- IHc, gen_comb_turns.
Qed.

Lemma gen_mode_step comb av cm w self m :
  gen_mode comb (av, cm, set_max_width w self) m
  = ({[display self m comb]} ∪ av,
     (if decide (length comb = 1)
      then <[display self m comb := (comb, None)]> cm
      else <[display self m comb := (comb, Some m)]> cm),
     set_max_width (Nat.max w (String.length (display self m comb))) self).
Proof. by destruct m. Qed.

(** The loop collects the display strings and stores the entries under them;
    of the instance it only touches [max_width]. *)
Lemma gen_fold self (J : list (list string * mode)) : ∀ av cm w,
  ∃ w',
    foldl (λ acc j, gen_mode j.1 acc j.2) (av, cm, set_max_width w self) J
    = (list_to_set ((λ j, display self j.2 j.1) <$> J) ∪ av,
       foldl (λ cm j, <[display self j.2 j.1 := entry j]> cm) cm J,
       set_max_width w' self).
Proof.
  induction J as [|[comb m] J IH]; intros av cm w.
  - exists w. cbn. by rewrite (left_id_L ∅ (∪)).
  - cbn [foldl fst snd]. rewrite gen_mode_step.
    destruct (IH ({[display self m comb]} ∪ av)
                 (if decide (length comb = 1)
                  then <[display self m comb := (comb, None)]> cm
                  else <[display self m comb := (comb, Some m)]> cm)
                 (Nat.max w (String.length (display self m comb)))) as [w' Hfold].
    exists w'. rewrite Hfold. f_equal. f_equal.
    + rewrite fmap_cons, list_to_set_cons. cbn [fst snd].
      by rewrite (assoc_L (∪)), (comm_L (∪) (list_to_set _)).
    + f_equal. unfold entry. cbn [fst snd]. by case_decide.
Qed.

(** Reading the map built from jobs that agree wherever their keys do. *)
Lemma lookup_stored {J V : Type} (key : J → string) (val : J → V) (js : list J) s v :
  (∀ j1 j2, j1 ∈ js → j2 ∈ js → key j1 = key j2 → val j1 = val j2) →
  foldl (λ cm j, <[key j := val j]> cm) (∅ : gmap string V) js !! s = Some v
  ↔ ∃ j, j ∈ js ∧ key j = s ∧ val j = v.
Proof.
  induction js as [|j js IH] using rev_ind; intros Hagree.
  - cbn. rewrite lookup_empty. split; [done|]. by intros (? & ?%elem_of_nil & _).
  - rewrite foldl_app. cbn [foldl]. rewrite lookup_insert.
    case_decide as Hkey.
    + split.
      * intros [= <-]. exists j. split_and!; try done. apply elem_of_app. right. left.
      * intros (j' & Hj' & Hk & <-). f_equal. apply Hagree; [|done|congruence].
        apply elem_of_app. right. left.
    + rewrite IH.
      2: { intros j1 j2 H1 H2. apply Hagree; apply elem_of_app; by left. }
      split.
      * intros (j' & Hj' & ?). exists j'. split; [|done]. apply elem_of_app. by left.
      * intros (j' & [Hj'|Hj']%elem_of_app & Hk & Hv); [by eauto|].
        apply list_elem_of_singleton in Hj'. by subst.
Qed.

(** ** The generator on well-formed names with the default separators *)

Lemma turns_elem c m c' : (c, m) ∈ turns c' ↔ c = c' ∧ c' ≠ [].
Proof.
  destruct c' as [|x c']; cbn.
  - split; [by intros ?%elem_of_nil | by intros [_ ?]].
  - rewrite !elem_of_cons, elem_of_nil. split.
    + intros [[= -> _]|[[= -> _]|[]]]; done.
    + intros [-> _]. destruct m; auto.
Qed.

Lemma jobs_elem conn c m : (c, m) ∈ jobs conn ↔ c ≠ [] ∧ c `sublist_of` conn.
Proof.
  unfold jobs, visited. rewrite list_elem_of_bind. split.
  - intros (c' & [-> Hne]%turns_elem & Hc'%upto_all_elem). done.
  - intros [Hne Hsub]. exists c. split; [by apply turns_elem|by apply upto_all_elem].
Qed.

Section Generator.
Variable self : Py3status.
Hypothesis Hclone : format_clone self = "=".
Hypothesis Hextend : format_extend self = "+".
Hypothesis Hwf : Forall wellformed (connected (the_layout self)).

Lemma sublist_wellformed c : c `sublist_of` (connected (the_layout self)) → Forall wellformed c.
Proof.
  intros Hsub. apply Forall_forall. intros o Ho.
  eapply (proj1 (Forall_forall _ _) Hwf), elem_of_sublist; done.
Qed.

Lemma display_clone c :
  c ≠ [] → Forall wellformed c → display self clone c = Py.join "=" c.
Proof.
  intros Hne Hall. unfold display, _get_string_and_set_width. cbn [fst _separator format_opt].
  rewrite Hclone. apply rstrip_join; [done|].
  eapply Forall_impl; [done|]. by intros o (? & ? & ?).
Qed.

Lemma display_extend c :
  c ≠ [] → Forall wellformed c → display self extend c = Py.join "+" c.
Proof.
  intros Hne Hall. unfold display, _get_string_and_set_width. cbn [fst _separator format_opt].
  rewrite Hextend. apply rstrip_join; [done|].
  eapply Forall_impl; [done|]. by intros o (? & ? & ?).
Qed.

Lemma wellformed_no_plus c : Forall wellformed c → Forall (λ o, Py.mem "+" o = false) c.
Proof. intros H. eapply Forall_impl; [done|]. by intros o (? & ? & ?). Qed.

Lemma wellformed_no_equals c : Forall wellformed c → Forall (λ o, Py.mem "=" o = false) c.
Proof. intros H. eapply Forall_impl; [done|]. by intros o (? & ? & ?). Qed.

(** A clone string and an extend string coincide only for one and the same
    single output. *)
Lemma display_across c1 c2 :
  c1 ≠ [] → c2 ≠ [] → Forall wellformed c1 → Forall wellformed c2 →
  display self clone c1 = display self extend c2 →
  c1 = c2 ∧ length c1 = 1.
Proof.
  intros Hn1 Hn2 H1 H2. rewrite display_clone, display_extend by done. intros Heq.
  assert (length c1 = 1) as Hl1.
  { destruct (decide (2 ≤ length c1)) as [Hlong|Hshort].
    - pose proof (mem_join_sep "=" c1 Hlong) as Hmem. rewrite Heq in Hmem.
      rewrite mem_join in Hmem; [done|done|by apply wellformed_no_equals].
    - destruct c1 as [|? [|??]]; cbn in *; (done || lia). }
  assert (length c2 = 1) as Hl2.
  { destruct (decide (2 ≤ length c2)) as [Hlong|Hshort].
    - pose proof (mem_join_sep "+" c2 Hlong) as Hmem. rewrite <- Heq in Hmem.
      rewrite mem_join in Hmem; [done|done|by apply wellformed_no_plus].
    - destruct c2 as [|? [|??]]; cbn in *; (done || lia). }
  destruct c1 as [|x [|??]], c2 as [|y [|??]]; try done.
  cbn in Heq. by subst.
Qed.

(** Jobs with the same display string have the same tuple, and the same
    mode unless the tuple is a single output. *)
Lemma key_inj j1 j2 :
  j1 ∈ jobs (connected (the_layout self)) → j2 ∈ jobs (connected (the_layout self)) → display self j1.2 j1.1 = display self j2.2 j2.1 →
  j1.1 = j2.1 ∧ (length j1.1 = 1 ∨ j1.2 = j2.2).
Proof.
  destruct j1 as [c1 m1], j2 as [c2 m2].
  intros [Hn1 Hs1]%jobs_elem [Hn2 Hs2]%jobs_elem. cbn [fst snd].
  pose proof (sublist_wellformed _ Hs1) as Hw1.
  pose proof (sublist_wellformed _ Hs2) as Hw2.
  destruct m1, m2; intros Heq.
  - rewrite !display_clone in Heq by done. split; [|by right].
    eapply join_inj; [| | | |done]; try done; by apply wellformed_no_equals.
  - destruct (display_across c1 c2) as [-> ?]; auto.
  - destruct (display_across c2 c1) as [-> ?]; auto.
  - rewrite !display_extend in Heq by done. split; [|by right].
    eapply join_inj; [| | | |done]; try done; by apply wellformed_no_plus.
Qed.

Lemma entry_agree j1 j2 :
  j1 ∈ jobs (connected (the_layout self)) → j2 ∈ jobs (connected (the_layout self)) → display self j1.2 j1.1 = display self j2.2 j2.1 → entry j1 = entry j2.
Proof.
  intros H1 H2 Heq. destruct (key_inj j1 j2 H1 H2 Heq) as [Hc Hm].
  unfold entry. rewrite <- Hc. f_equal. case_decide; [done|].
  destruct Hm as [?| ->]; done.
Qed.

(** What the generator leaves in the instance. *)
Lemma generated :
  let self' := _set_available_combinations self in
  available_combinations self'
    = elements (list_to_set ((λ j, display self j.2 j.1) <$> jobs (connected (the_layout self))) : gset string) ∧
  ∀ s v, combinations_map self' !! s = Some v
         ↔ ∃ j, j ∈ jobs (connected (the_layout self)) ∧ display self j.2 j.1 = s ∧ entry j = v.
Proof.
  cbv zeta. unfold _set_available_combinations. rewrite gen_loops_jobs.
  destruct (gen_fold self (jobs (connected (the_layout self))) ∅ ∅ 0) as [w' ->].
  cbn [available_combinations combinations_map set_combinations_map set_available].
  split.
  - by rewrite (right_id_L ∅ (∪)).
  - intros s v. apply (lookup_stored (λ j, display self j.2 j.1) entry). apply entry_agree.
Qed.

End Generator.

(** ** Counting the display strings *)

Lemma length_by_size {A} (l : list (list A)) :
  length l
  = length (filter (λ c, length c = 0) l) + length (filter (λ c, length c = 1) l)
    + length (filter (λ c, 2 ≤ length c) l).
Proof.
  induction l as [|c l IH]; [done|].
  rewrite !filter_cons. cbn [length]. rewrite IH.
  destruct c as [|? [|??]]; cbn [length];
    repeat case_decide; cbn [length]; lia.
Qed.

Lemma visited_empties conn :
  NoDup conn → length (filter (λ c, length c = 0) (visited conn)) = 1.
Proof.
  intros Hnd. change 1 with (length [@nil string]). apply Permutation_length.
  apply NoDup_Permutation.
  - by apply NoDup_filter, upto_NoDup.
  - apply NoDup_singleton.
  - intros c. rewrite list_elem_of_filter, list_elem_of_singleton. unfold visited.
    rewrite upto_all_elem. split.
    + intros [Hlen _]. by destruct c.
    + intros ->. split; [done|]. apply sublist_nil_l.
Qed.

Lemma visited_singles conn :
  NoDup conn → length (filter (λ c, length c = 1) (visited conn)) = length conn.
Proof.
  intros Hnd. rewrite <- (length_fmap (λ o, [o]) conn). apply Permutation_length.
  apply NoDup_Permutation.
  - by apply NoDup_filter, upto_NoDup.
  - apply NoDup_fmap_2; [|done]. by intros ?? [=].
  - intros c. rewrite list_elem_of_filter, list_elem_of_fmap. unfold visited.
    rewrite upto_all_elem. split.
    + intros [Hlen Hsub]. destruct c as [|o [|??]]; try done.
      exists o. split; [done|]. by apply singleton_sublist_l.
    + intros (o & -> & Ho). split; [done|]. by apply singleton_sublist_l.
Qed.

Lemma multis_length conn :
  NoDup conn → 1 + length conn + length (multis conn) = 2 ^ length conn.
Proof.
  intros Hnd. unfold multis.
  pose proof (length_by_size (visited conn)) as Hsum.
  rewrite visited_empties, visited_singles in Hsum by done.
  unfold visited in Hsum at 1. rewrite upto_all_length in Hsum. lia.
Qed.

Lemma multis_elem conn c : c ∈ multis conn ↔ 2 ≤ length c ∧ c `sublist_of` conn.
Proof. unfold multis, visited. by rewrite list_elem_of_filter, upto_all_elem. Qed.

Lemma turns_length (l : list (list string)) :
  Forall (λ c, c ≠ []) l → length (l ≫= turns) = 2 * length l.
Proof.
  induction 1 as [|c l Hc _ IH]; [done|].
  rewrite bind_cons, length_app, IH. destruct c; [done|]. cbn. lia.
Qed.

Lemma distinct_jobs_length conn :
  NoDup conn → length (distinct_jobs conn) = 2 * (2 ^ length conn - 1 - length conn) + length conn.
Proof.
  intros Hnd. unfold distinct_jobs. rewrite length_app, length_fmap, turns_length.
  - pose proof (multis_length conn Hnd). lia.
  - apply Forall_forall. intros c [Hlen _]%multis_elem. destruct c; cbn in *; [lia|done].
Qed.

Lemma distinct_jobs_elem conn c m :
  (c, m) ∈ distinct_jobs conn
  ↔ (m = clone ∧ ∃ o, c = [o] ∧ o ∈ conn) ∨ (2 ≤ length c ∧ c `sublist_of` conn).
Proof.
  unfold distinct_jobs. rewrite elem_of_app, list_elem_of_fmap, list_elem_of_bind.
  split.
  - intros [(o & [= -> ->] & Ho)|(c' & [-> _]%turns_elem & Hc'%multis_elem)]; [|by right].
    left. eauto.
  - intros [[-> (o & -> & Ho)]|[Hlen Hsub]]; [left; by eauto|].
    right. exists c. split; [|by apply multis_elem].
    apply turns_elem. split; [done|]. destruct c; cbn in *; [lia|done].
Qed.

Lemma distinct_jobs_NoDup conn : NoDup conn → NoDup (distinct_jobs conn).
Proof.
  intros Hnd. unfold distinct_jobs. apply NoDup_app. split_and!.
  - apply NoDup_fmap_2; [|done]. by intros ?? [=].
  - intros j (o & -> & _)%list_elem_of_fmap (c & [<- _]%turns_elem & [Hlen _]%multis_elem)%list_elem_of_bind.
    cbn in Hlen. lia.
  - apply NoDup_bind.
    + intros c1 c2 [c m] _ _ [<- _]%turns_elem [<- _]%turns_elem. done.
    + intros c _. destruct c; cbn; [constructor|].
      apply NoDup_cons. split; [|apply NoDup_singleton].
      by intros [=]%list_elem_of_singleton.
    + by apply NoDup_filter, upto_NoDup.
Qed.

Lemma distinct_jobs_sub conn j : j ∈ distinct_jobs conn → j ∈ jobs conn.
Proof.
  destruct j as [c m]. rewrite distinct_jobs_elem, jobs_elem.
  intros [[_ (o & -> & Ho)]|[Hlen Hsub]].
  - split; [done|]. by apply singleton_sublist_l.
  - split; [|done]. destruct c; cbn in *; [lia|done].
Qed.

Lemma filter_all {A} (P : A → Prop) `{∀ x, Decision (P x)} (l : list A) :
  Forall P l → filter P l = l.
Proof.
  induction 1 as [|y l Hy _ IH]; [done|].
  by rewrite filter_cons_True, IH.
Qed.

Lemma filter_other_length {A} (x : A) `{∀ y, Decision (y ≠ x)} (l : list A) :
  NoDup l → x ∈ l → S (length (filter (λ y, y ≠ x) l)) = length l.
Proof.
  induction 1 as [|y l Hy Hnd IH]; [by intros ?%elem_of_nil|].
  rewrite filter_cons. intros [->|Hx]%elem_of_cons.
  - rewrite decide_False by (by intros ?). cbn [length]. f_equal.
    f_equal. apply filter_all. apply Forall_forall. by intros z Hz ->.
  - rewrite decide_True by (by intros ->). cbn [length]. by rewrite IH.
Qed.

(** C1, as the code has it.  With the default separators and connected
    outputs whose names are distinct, not empty and free of both separators,
    the map holds exactly the [2^N - 1] non-empty subsequences of the
    connected outputs; a subsequence of two outputs or more is stored twice,
    under its clone string with mode clone and under its different extend
    string with mode extend; a single output is stored once, under its own
    name and without a mode; every entry sits under the display string of its
    own combination and mode; and the ring lists the keys of the map, each
    once, [2 * (2^N - 1 - N) + N] of them. *)
Theorem generator_covers_subsets self :
  format_clone self = "=" →
  format_extend self = "+" →
  NoDup (connected (the_layout self)) →
  Forall wellformed (connected (the_layout self)) →
  let conn := connected (the_layout self) in
  let N := length conn in
  let cmap := combinations_map (_set_available_combinations self) in
  let ring := available_combinations (_set_available_combinations self) in
  (∃ subsets : list (list string),
     NoDup subsets ∧ length subsets = 2 ^ N - 1 ∧
     (∀ c, c ∈ subsets ↔ c ≠ [] ∧ c `sublist_of` conn) ∧
     (∀ c, c ∈ subsets ↔ ∃ s m, cmap !! s = Some (c, m))) ∧
  (∀ c, c `sublist_of` conn → 2 ≤ length c →
     cmap !! Py.join "=" c = Some (c, Some clone) ∧
     cmap !! Py.join "+" c = Some (c, Some extend) ∧
     Py.join "=" c ≠ Py.join "+" c) ∧
  (∀ o, o ∈ conn →
     cmap !! o = Some ([o], None) ∧
     ∀ s m, cmap !! s = Some ([o], m) → s = o ∧ m = None) ∧
  (∀ s c m, cmap !! s = Some (c, m) →
     match m with
     | None => c = [s]
     | Some md => 2 ≤ length c ∧ s = Py.join (default_separator md) c
     end) ∧
  NoDup ring ∧
  (∀ s, s ∈ ring ↔ is_Some (cmap !! s)) ∧
  length ring = 2 * (2 ^ N - 1 - N) + N.
Proof.
  intros Hclone Hextend Hnd Hwf. cbv zeta.
  destruct (generated self Hclone Hextend Hwf) as [Hring Hmap]. cbv zeta in Hring, Hmap.
  set (conn := connected (the_layout self)) in *.
  set (cmap := combinations_map (_set_available_combinations self)) in *.
  assert (∀ c md, c ≠ [] → c `sublist_of` conn →
            display self md c = Py.join (default_separator md) c) as Hdisplay.
  { intros c md Hne Hsub. pose proof (sublist_wellformed self Hwf c Hsub).
    destruct md; [by apply display_clone|by apply display_extend]. }
  assert (∀ c md, c ≠ [] → c `sublist_of` conn →
            cmap !! Py.join (default_separator md) c
            = Some (c, if decide (length c = 1) then None else Some md)) as Hstored.
  { intros c md Hne Hsub. apply Hmap. exists (c, md). split_and!.
    - by apply jobs_elem.
    - by apply Hdisplay.
    - done. }
  assert (∀ s c m, cmap !! s = Some (c, m) →
            c ≠ [] ∧ c `sublist_of` conn ∧
            ∃ md, s = Py.join (default_separator md) c ∧
                  m = if decide (length c = 1) then None else Some md) as Hentry.
  { intros s c m ([c' md] & Hj & Hkey & Hval)%Hmap.
    unfold entry in Hval. cbn [fst snd] in *. simplify_eq.
    apply jobs_elem in Hj as [Hne Hsub]. split_and!; try done.
    exists md. split; [|done]. by apply Hdisplay. }
  split_and!.
  - exists (filter (λ c, c ≠ []) (visited conn)). split_and!.
    + by apply NoDup_filter, upto_NoDup.
    + pose proof (filter_other_length [] (visited conn)) as Hlen.
      assert (length (visited conn) = 2 ^ length conn) as Hvis
        by apply upto_all_length.
      rewrite Hvis in Hlen. rewrite <- Hlen; [lia|by apply upto_NoDup|].
      apply upto_all_elem, sublist_nil_l.
    + intros c. unfold visited. by rewrite list_elem_of_filter, upto_all_elem.
    + intros c. unfold visited. rewrite list_elem_of_filter, upto_all_elem. split.
      * intros [Hne Hsub]. eexists _, _. by apply (Hstored c clone).
      * intros (s & m & Hs). by destruct (Hentry _ _ _ Hs) as (? & ? & _).
  - intros c Hsub Hlen.
    assert (c ≠ []) as Hne by (destruct c; cbn in *; [lia|done]).
    pose proof (Hstored c clone Hne Hsub) as Hc.
    pose proof (Hstored c extend Hne Hsub) as He.
    rewrite decide_False in Hc, He by lia. split_and!; try done.
    intros Heq. pose proof (sublist_wellformed self Hwf c Hsub) as Hall.
    destruct (display_across self Hclone Hextend c c) as [_ ?]; try done; [|lia].
    by rewrite display_clone, display_extend.
  - intros o Ho. apply singleton_sublist_l in Ho.
    split; [apply (Hstored [o] clone); done|].
    intros s m (_ & _ & md & -> & ->)%Hentry. split; [|done]. by destruct md.
  - intros s c m (Hne & Hsub & md & -> & ->)%Hentry. case_decide as Hlen.
    + by destruct c as [|o [|??]].
    + split; [|done]. destruct c as [|? [|??]]; cbn in *; (done || lia).
  - rewrite Hring. apply NoDup_elements.
  - intros s. rewrite Hring, elem_of_elements, elem_of_list_to_set, list_elem_of_fmap.
    split.
    + intros (j & -> & Hj). exists (entry j). apply Hmap. by exists j.
    + intros [v (j & Hj & <- & _)%Hmap]. by exists j.
  - rewrite Hring. change (length (elements ?X)) with (size X).
    rewrite <- (distinct_jobs_length conn Hnd).
    rewrite <- (length_fmap (λ j, display self j.2 j.1) (distinct_jobs conn)).
    rewrite <- (size_list_to_set (C := gset string)).
    + f_equal. apply set_eq. intros s.
      rewrite !elem_of_list_to_set, !list_elem_of_fmap. split.
      * intros ([c m] & -> & [Hne Hsub]%jobs_elem). cbn [fst snd].
        destruct (decide (length c = 1)) as [Hone|Hmore].
        -- destruct c as [|o [|??]]; try done. exists ([o], clone). split.
           ++ cbn [fst snd]. rewrite !Hdisplay by done. by destruct m.
           ++ apply distinct_jobs_elem. left. split; [done|]. exists o.
              split; [done|]. by apply singleton_sublist_l.
        -- exists (c, m). split; [done|]. apply distinct_jobs_elem. right.
           split; [|done]. destruct c as [|? [|??]]; cbn in *; (done || lia).
      * intros (j & -> & Hj). exists j. split; [done|]. by apply distinct_jobs_sub.
    + apply NoDup_fmap_2_strong; [|by apply distinct_jobs_NoDup].
      intros [c1 m1] [c2 m2] H1 H2 Hkey.
      destruct (key_inj self Hclone Hextend Hwf (c1, m1) (c2, m2)) as [Hc Hm];
        [by apply distinct_jobs_sub..|done|].
      cbn [fst snd] in *. subst c2. f_equal.
      destruct Hm as [Hone|Hm]; [|done].
      apply distinct_jobs_elem in H1 as [[-> _]|[? _]]; [|lia].
      apply distinct_jobs_elem in H2 as [[-> _]|[? _]]; [done|lia].
Qed.

Lemma generator_covers_subsets_witness :
  length (available_combinations (_set_available_combinations docked)) = 4.
Proof.
  refine (proj2 (proj2 (proj2 (proj2 (proj2 (proj2
            (generator_covers_subsets docked _ _ _ _))))))).
  - reflexivity.
  - reflexivity.
  - apply (bool_decide_unpack _). vm_compute. exact I.
  - repeat constructor; discriminate.
Defined.

(** C1 as stated fails for a name that holds no separator because it is
    empty: the pair of [A] and the empty name is displayed as [A] in both
    modes, the stripped separator being all that told it from [A] alone, so
    the ring has two strings instead of four and [A] now stands for the
    pair. *)
Lemma generator_collides_on_empty_name :
  format_clone nameless_output = "=" ∧
  format_extend nameless_output = "+" ∧
  NoDup (connected (the_layout nameless_output)) ∧
  Forall separator_free (connected (the_layout nameless_output)) ∧
  length (available_combinations (_set_available_combinations nameless_output))
    ≠ 2 * (2 ^ 2 - 1 - 2) + 2 ∧
  combinations_map (_set_available_combinations nameless_output) !! "A"
    = Some (["A"; EmptyString], Some extend).
Proof.
  split_and!.
  - reflexivity.
  - reflexivity.
  - apply (bool_decide_unpack _). vm_compute. exact I.
  - repeat constructor.
  - vm_compute. discriminate.
  - vm_compute. reflexivity.
Qed.

(** ** The first cycle *)

Lemma for_each_emit evs w self k :
  for_each evs emit w self k = Result (inr tt) self k evs.
Proof.
  revert k. induction evs as [|e evs IH]; intros k; [done|].
  cbn [for_each]. rewrite bind_emit, IH. reflexivity.
Qed.

(** C2, as the code has it.  On a first cycle (no active layout yet, default
    separators) that detects [eDP1] and [DP1] connected, nothing
    disconnected and no output with a mode, the active combination becomes
    the empty tuple and the active layout the empty string, and the ring
    holds exactly four strings: the two names and the pair in detection
    order, extended and cloned.  The pair in the other order is not
    generated. *)
Theorem first_cycle_two_idle_outputs lines self w k :
  (detect lines).1.1 = [] →
  (detect lines).1.2 = Layout ["eDP1"; "DP1"] [] →
  active_layout self = None →
  format_clone self = "=" →
  format_extend self = "+" →
  let r := detect_and_generate lines w self k in
  value r = inr tt ∧
  active_comb (self_of r) = Some [] ∧
  active_layout (self_of r) = Some EmptyString ∧
  (available_combinations (self_of r) ≡ₚ ["eDP1"; "DP1"; "eDP1+DP1"; "eDP1=DP1"]) ∧
  ("DP1+eDP1" ∉ available_combinations (self_of r)) ∧
  ("DP1=eDP1" ∉ available_combinations (self_of r)).
Proof.
  intros Hactive Hlay Hfirst Hclone Hextend. cbv zeta.
  unfold detect_and_generate, _get_layout.
  destruct (detect lines) as [[active lay] evs]. cbn [fst snd] in Hactive, Hlay. subst.
  rewrite !bind_assoc, bind_emit, bind_assoc.
  rewrite (bind_run _ _ _ _ _ tt) by (by rewrite for_each_emit).
  rewrite for_each_emit. cbn [value self_of ncalls events].
  rewrite bind_assoc, bind_get, Hfirst.
  destruct self as [ct fb fw fos fc fe at_ ac al am d mw lay av cm].
  cbn in Hfirst, Hclone, Hextend. subst.
  match goal with
  | |- context [available_combinations ?s] =>
      let ring := eval vm_compute in (available_combinations s) in
      replace (available_combinations s) with ring by (vm_compute; reflexivity)
  end.
  split_and!; try (vm_compute; reflexivity).
  - apply NoDup_Permutation.
    + apply (bool_decide_unpack _). vm_compute. exact I.
    + apply (bool_decide_unpack _). vm_compute. exact I.
    + intros x. rewrite !elem_of_cons, !elem_of_nil. tauto.
  - rewrite !elem_of_cons, elem_of_nil. intros [?|[?|[?|[?|[]]]]]; discriminate.
  - rewrite !elem_of_cons, elem_of_nil. intros [?|[?|[?|[?|[]]]]]; discriminate.
Qed.

Lemma first_cycle_two_idle_outputs_witness :
  active_layout (self_of (detect_and_generate two_idle_outputs failing init 0))
  = Some EmptyString.
Proof.
  refine (proj1 (proj2 (proj2
            (first_cycle_two_idle_outputs two_idle_outputs init failing 0 _ _ _ _ _)))).
  - vm_compute. reflexivity.
  - vm_compute. reflexivity.
  - reflexivity.
  - reflexivity.
  - reflexivity.
Defined.

(** C2 as stated fails: in its scenario the ring has four strings, and
    neither [DP1+eDP1] nor [DP1=eDP1] is one of them. *)
Lemma first_cycle_has_no_reversed_pair :
  let ring :=
    available_combinations (self_of (detect_and_generate two_idle_outputs failing init 0)) in
  length ring = 4 ∧ ("DP1+eDP1" ∉ ring) ∧ ("DP1=eDP1" ∉ ring).
Proof.
  cbv zeta. split_and!.
  - vm_compute. reflexivity.
  - intros H%list_elem_of_In. vm_compute in H. intuition discriminate.
  - intros H%list_elem_of_In. vm_compute in H. intuition discriminate.
Qed.

(** ** A cycle that raises *)

(** C9 fails on the code.  A laptop panel is detected as the active single
    output and the first cycle answers normally; on the next cycle no output
    is connected, the ring is empty, the active layout is no longer
    available, and the fallback reads the head of the empty ring: the cycle
    ends in an IndexError instead of a response. *)
Theorem cycle_raises_without_outputs w :
  let first := xrandr colors laptop_alone 0 w init 0 in
  let second := xrandr colors nothing_connected 10 w (self_of first) (ncalls first) in
  value first = inr (Response 10 (Some "eDP1") (Some "#00FF00")) ∧
  active_comb (self_of first) = Some ["eDP1"] ∧
  fallback (self_of first) = true ∧
  available_combinations (self_of second) = [] ∧
  value second = inl (IndexError "deque index out of range").
Proof. cbv zeta. split_and!; vm_compute; reflexivity. Qed.

(** On a first cycle with two idle outputs nothing is displayed yet, and
    centring [None] raises as well (Python 3). *)
Lemma cycle_raises_without_selection w :
  value (xrandr colors two_idle_outputs 0 w init 0)
  = inl (TypeError "unsupported format string passed to NoneType.__format__").
Proof. vm_compute. reflexivity. Qed.
